(** * Mean-variance Sharpe maximisation: a shallow embedding

    The development follows [mean_variance_optimization.py] and [data.py].
    Numbers are rationals extended with NaN and the two infinities, so the
    model computes without rounding and without overflow.  It is used for
    what does not depend on either: which exception a call raises and
    where, the shape and the labels of a result, where NaN and the
    infinities arise, and facts about the quadratic program that hold for
    every mean vector and covariance matrix.  Everything [prob.solve] does
    (the DCP check, the canonicalisation, the run of ECOS) is a parameter
    of the embedding. *)

From Stdlib Require Import String QArith Qabs ZArith Bool Lia Lqa Arith List.
Import ListNotations.

Open Scope Q_scope.

(** ** numpy scalars *)

Inductive npfloat : Type :=
| Fin (q : Q)
| PInf
| NInf
| NaN.

(** [np.true_divide x y] on finite operands: a zero divisor gives an
    infinity of the sign of [x], and NaN for [0 / 0]. *)
Definition np_true_divide (x y : Q) : npfloat :=
  if Qeq_bool y 0 then
    (if Qeq_bool x 0 then NaN
     else if Qle_bool 0 x then PInf else NInf)
  else Fin (x / y).

(** [c * f] for a finite [c]: [0 * inf] is NaN. *)
Definition np_scale (c : Q) (f : npfloat) : npfloat :=
  match f with
  | Fin q => Fin (c * q)
  | NaN => NaN
  | PInf => if Qeq_bool c 0 then NaN else if Qle_bool 0 c then PInf else NInf
  | NInf => if Qeq_bool c 0 then NaN else if Qle_bool 0 c then NInf else PInf
  end.

Definition is_finite (f : npfloat) : bool :=
  match f with Fin _ => true | _ => false end.

(** Equality of numpy scalars up to the representation of a rational. *)
Definition npfloat_eq (a b : npfloat) : Prop :=
  match a, b with
  | Fin x, Fin y => x == y
  | PInf, PInf | NInf, NInf | NaN, NaN => True
  | _, _ => False
  end.

(** Reading back an array of finite entries. *)
Fixpoint finite_vec (v : list npfloat) : option (list Q) :=
  match v with
  | [] => Some []
  | Fin q :: v' =>
      match finite_vec v' with
      | Some l => Some (q :: l)
      | None => None
      end
  | _ :: _ => None
  end.

Fixpoint finite_mat (m : list (list npfloat)) : option (list (list Q)) :=
  match m with
  | [] => Some []
  | r :: m' =>
      match finite_vec r, finite_mat m' with
      | Some r', Some l => Some (r' :: l)
      | _, _ => None
      end
  end.

(** ** Vectors and matrices of rationals *)

Fixpoint np_sum (v : list Q) : Q :=
  match v with
  | [] => 0
  | x :: v' => x + np_sum v'
  end.

Fixpoint dot (a b : list Q) : Q :=
  match a, b with
  | x :: a', y :: b' => x * y + dot a' b'
  | _, _ => 0
  end.

Definition mat_vec (P : list (list Q)) (w : list Q) : list Q :=
  map (fun row => dot row w) P.

(** [w^T P w] *)
Definition quad (w : list Q) (P : list (list Q)) : Q :=
  dot w (mat_vec P w).

Definition scale (k : Q) (w : list Q) : list Q := map (Qmult k) w.

Definition mat_scale (c : Q) (P : list (list Q)) : list (list Q) :=
  map (scale c) P.

Definition vec_eq (a b : list Q) : Prop := Forall2 Qeq a b.
Definition mat_eq (A B : list (list Q)) : Prop := Forall2 vec_eq A B.

(** ** pandas objects *)

(** A DataFrame of shape (T, n), stored by column: [nobs] is the length of
    the index (T) and [series] pairs each column label with its values. *)
Record DataFrame : Type := mkDataFrame {
  nobs : nat;
  series : list (string * list Q)
}.

Definition columns (df : DataFrame) : list string := map fst (series df).

Definition wf_df (df : DataFrame) : Prop :=
  Forall (fun c => length (snd c) = nobs df) (series df).

(** A pandas Series: values with their index labels. *)
Record Series : Type := mkSeries {
  values : list npfloat;
  index : list string
}.

(** ** Return statistics: [returns.mean()] and [returns.cov()] *)

(** Column mean: sum over the observations divided by their count. *)
Definition col_mean (col : list Q) : npfloat :=
  np_true_divide (np_sum col) (inject_Z (Z.of_nat (length col))).

Definition df_mean (df : DataFrame) : list npfloat :=
  map (fun c => col_mean (snd c)) (series df).

(** [np.cov(mat.T, ddof=1)]: centre each variable on its average, take the
    products of the centred rows, and multiply by [1 / fact] where
    [fact = T - ddof], replaced by 0 when it is not positive. *)
Definition np_average (col : list Q) : Q :=
  np_sum col / inject_Z (Z.of_nat (length col)).

Definition centre (col : list Q) : list Q :=
  map (fun x => x - np_average col) col.

Definition cov_fact (T : nat) : Q :=
  inject_Z (Z.max (Z.of_nat T - 1) 0).

Definition cov_entry (T : nat) (ci cj : list Q) : npfloat :=
  np_scale (dot (centre ci) (centre cj)) (np_true_divide 1 (cov_fact T)).

Definition df_cov (df : DataFrame) : list (list npfloat) :=
  map (fun ci => map (fun cj => cov_entry (nobs df) (snd ci) (snd cj)) (series df))
      (series df).

(** ** Python objects, exceptions and the object store *)

Inductive exn : Type :=
| PyExc (cls : string) (msg : string).

Definition exn_class (e : exn) : string :=
  match e with PyExc c _ => c end.

Definition ValueError (msg : string) : exn := PyExc "ValueError" msg.

Inductive outcome (A : Type) : Type :=
| Ok (a : A)
| Raise (e : exn).
Arguments Ok {A} a.
Arguments Raise {A} e.

Definition addr := nat.

(** The objects the function touches: the caller's DataFrame and the cvxpy
    Variable it creates, whose [value] field is filled in by [solve]. *)
Inductive object : Type :=
| ODataFrame (df : DataFrame)
| OVariable (n : nat) (value : option (list Q)).

Definition heap := list object.

Module Py.

Definition M (A : Type) : Type := heap -> outcome A * heap.

Definition ret {A} (a : A) : M A := fun h => (Ok a, h).

Definition raise {A} (e : exn) : M A := fun h => (Raise e, h).

Definition bind {A B} (m : M A) (k : A -> M B) : M B :=
  fun h =>
    match m h with
    | (Ok a, h') => k a h'
    | (Raise e, h') => (Raise e, h')
    end.

Definition alloc (o : object) : M addr :=
  fun h => (Ok (length h), h ++ [o]).

Definition load (a : addr) : M object :=
  fun h =>
    match nth_error h a with
    | Some o => (Ok o, h)
    | None => (Raise (PyExc "NameError" "undefined object"), h)
    end.

Fixpoint update (h : heap) (a : addr) (o : object) : heap :=
  match h, a with
  | [], _ => []
  | _ :: h', O => o :: h'
  | x :: h', S a' => x :: update h' a' o
  end.

Definition store (a : addr) (o : object) : M unit :=
  fun h => (Ok tt, update h a o).

End Py.

Notation "x <- m ;; k" := (Py.bind m (fun x => k))
  (at level 61, m at next level, right associativity).
Notation "m ;;; k" := (Py.bind m (fun _ => k))
  (at level 61, right associativity).

(** Attribute access on the [returns] argument. *)
Definition as_frame (a : addr) : Py.M DataFrame :=
  o <- Py.load a ;;
  match o with
  | ODataFrame df => Py.ret df
  | OVariable _ _ =>
      Py.raise (PyExc "AttributeError" "'Variable' object has no attribute 'mean'")
  end.

(** ** cvxpy *)

Inductive Expr : Type :=
| QuadForm (x : addr) (P : list (list npfloat))      (* x^T P x *)
| affine (a : list npfloat) (x : addr) (c : Q).      (* a.T @ x - c *)

Inductive Objective : Type :=
| Minimize (e : Expr).

Inductive Constraint : Type :=
| EqC (e : Expr) (rhs : Q)      (* e == rhs *)
| GeZero (x : addr).            (* x >= 0 *)

Record Problem : Type := mkProblem {
  objective : Objective;
  constraints : list Constraint
}.

(** The data handed to the numerical solver: minimise [w^T P w] subject
    to [a^T w - c = rhs] and [w >= 0], over [w] of length [qp_n]. *)
Record QP : Type := mkQP {
  qp_n : nat;
  qp_P : list (list npfloat);
  qp_a : list npfloat;
  qp_c : Q;
  qp_rhs : Q
}.

(** What [prob.solve] does with the program: it raises (a DCPError, a
    SolverError), or ends with a status and the value it leaves in the
    variable ([None] when the status is not optimal). *)
Inductive solve_outcome : Type :=
| Raised (e : exn)
| Status (value : option (list Q)).

Definition solver_t : Type := QP -> solve_outcome.

Definition cp_Variable (n : nat) : Py.M addr :=
  Py.alloc (OVariable n None).

Definition entry (M : list (list npfloat)) (i j : nat) : npfloat :=
  nth j (nth i M []) NaN.

(** [np.isclose(a, b)] with numpy's default tolerances:
    [|a - b| <= atol + rtol * |b|] on finite numbers; equal infinities are
    close, NaN is close to nothing. *)
Definition rtol : Q := 1 # 100000.
Definition atol : Q := 1 # 100000000.

Definition np_isclose (a b : npfloat) : bool :=
  match a, b with
  | Fin x, Fin y => Qle_bool (Qabs (x - y)) (atol + rtol * Qabs y)
  | PInf, PInf => true
  | NInf, NInf => true
  | _, _ => false
  end.

(** [np.allclose(P, P.T)] *)
Definition np_allclose_T (P : list (list npfloat)) : bool :=
  forallb (fun i =>
             forallb (fun j => np_isclose (entry P i j) (entry P j i))
                     (seq 0 (length P)))
          (seq 0 (length P)).

(** [P.shape[0] == P.shape[1]] *)
Definition is_square (P : list (list npfloat)) : bool :=
  forallb (fun row => (length row =? length P)%nat) P.

(** [Constant.is_hermitian]: a constant of shape (1, 1) is a scalar to
    cvxpy and is accepted without a look at its entry; any other square
    matrix is compared with its transpose. *)
Definition is_hermitian (P : list (list npfloat)) : bool :=
  match P with
  | [[_]] => true
  | _ => np_allclose_T P
  end.

Definition invalid_dimensions : exn :=
  PyExc "Exception" "Invalid dimensions for arguments.".

Definition not_hermitian : exn :=
  PyExc "ValueError" "Quadratic form matrices must be symmetric/Hermitian.".

(** The checks of [cp.quad_form(x, P)] for a variable [x] of shape (n,):
    the dimensions, [max(x.shape, (1,))[0] == P.shape[0]] included, then
    the symmetry of [P]. *)
Definition quad_form_check (n : nat) (P : list (list npfloat)) : option exn :=
  if negb (is_square P) || negb (Nat.max n 1 =? length P)%nat
  then Some invalid_dimensions
  else if is_hermitian P then None
  else Some not_hermitian.

(** [cp.quad_form(x, P)] *)
Definition quad_form (x : addr) (P : list (list npfloat)) : Py.M Expr :=
  o <- Py.load x ;;
  match o with
  | OVariable n _ =>
      match quad_form_check n P with
      | Some e => Py.raise e
      | None => Py.ret (QuadForm x P)
      end
  | ODataFrame _ => Py.raise (PyExc "TypeError" "not a Variable")
  end.

(** Problems of the shape the program builds, over a single variable. *)
Definition canonical (p : Problem) : option (addr * (nat -> QP)) :=
  match objective p, constraints p with
  | Minimize (QuadForm x P), [EqC (affine a y c) rhs; GeZero z] =>
      if (x =? y)%nat && (x =? z)%nat
      then Some (x, fun n => mkQP n P a c rhs)
      else None
  | _, _ => None
  end.

(** [prob.solve(solver=cp.ECOS, verbose=False)] *)
Definition prob_solve (ecos : solver_t) (p : Problem) : Py.M unit :=
  match canonical p with
  | None => Py.raise (PyExc "DCPError" "Problem does not follow DCP rules.")
  | Some (x, qp) =>
      o <- Py.load x ;;
      match o with
      | OVariable n _ =>
          match ecos (qp n) with
          | Raised e => Py.raise e
          | Status v => Py.store x (OVariable n v)
          end
      | ODataFrame _ => Py.raise (PyExc "TypeError" "not a Variable")
      end
  end.

(** [w.value] *)
Definition var_value (x : addr) : Py.M (option (list Q)) :=
  o <- Py.load x ;;
  match o with
  | OVariable _ v => Py.ret v
  | ODataFrame _ => Py.raise (PyExc "TypeError" "not a Variable")
  end.

(** [w_opt / np.sum(w_opt)] *)
Definition np_divide (w : list Q) (s : Q) : list npfloat :=
  map (fun x => np_true_divide x s) w.

(** ** The program *)

Definition no_solution : string := "Optimization failed: no solution found.".

(** Lines 25-49: from the statistics to the normalised weights. *)
Definition portfolio_optimizer (ecos : solver_t)
    (mu : list npfloat) (Sigma : list (list npfloat)) (rf : Q)
    (cols : list string) : Py.M Series :=
  let n := length mu in
  w <- cp_Variable n ;;
  form <- quad_form w Sigma ;;
  let objective := Minimize form in
  let constraints := [EqC (affine mu w rf) 1; GeZero w] in
  let prob := mkProblem objective constraints in
  prob_solve ecos prob ;;;
  w_opt <- var_value w ;;
  match w_opt with
  | None => Py.raise (ValueError no_solution)
  | Some w_opt =>
      let w_norm := np_divide w_opt (np_sum w_opt) in
      Py.ret (mkSeries w_norm cols)
  end.

Definition mean_variance_sharpe_maximization (ecos : solver_t)
    (returns : addr) (rf : Q) : Py.M Series :=
  df <- as_frame returns ;;
  let mu := df_mean df in
  let Sigma := df_cov df in
  portfolio_optimizer ecos mu Sigma rf (columns df).

(** ** Meaning of the quadratic program and of a correct solver *)

Definition nonneg (w : list Q) : Prop := Forall (fun x => 0 <= x) w.

Definition feasible (qp : QP) (w : list Q) : Prop :=
  length w = qp_n qp /\ nonneg w /\
  exists a, finite_vec (qp_a qp) = Some a /\ dot a w - qp_c qp == qp_rhs qp.

Definition qp_solution (qp : QP) (w : list Q) : Prop :=
  feasible qp w /\
  exists P, finite_mat (qp_P qp) = Some P /\
    forall w', feasible qp w' -> quad w P <= quad w' P.

(** A solver is sound when every value it reports solves the program. *)
Definition solver_sound (ecos : solver_t) : Prop :=
  forall qp w, ecos qp = Status (Some w) -> qp_solution qp w.

(** The program of a returns table. *)
Definition problem_of (df : DataFrame) (rf : Q) : QP :=
  mkQP (length (df_mean df)) (df_cov df) (df_mean df) rf 1.

Definition holds_frame (h : heap) (a : addr) (df : DataFrame) : Prop :=
  nth_error h a = Some (ODataFrame df).

(** The left-hand side of the constraint the docstring and the comment of
    line 34 announce, "transformed from max Sharpe": the excess return
    [(mu - rf)^T w] of the portfolio, where line 36 has [mu^T w - rf]. *)
Definition excess_return (mu : list Q) (rf : Q) (w : list Q) : Q :=
  dot (map (fun m => m - rf) mu) w.

(** ** An exact solver for uncorrelated assets

    When the covariance matrix is diagonal with positive variances [d] the
    program has a closed-form solution: with [b = rhs + c >= 0] the optimum
    puts weight proportional to [max(a_i, 0) / d_i] on asset [i].  This is
    not ECOS, which iterates in floating point: it is an instance of the
    solver parameter on which the statements can be evaluated. *)

Fixpoint vec_eqb (a b : list Q) : bool :=
  match a, b with
  | [], [] => true
  | x :: a', y :: b' => Qeq_bool x y && vec_eqb a' b'
  | _, _ => false
  end.

Fixpoint mat_eqb (A B : list (list Q)) : bool :=
  match A, B with
  | [], [] => true
  | r :: A', s :: B' => vec_eqb r s && mat_eqb A' B'
  | _, _ => false
  end.

Fixpoint diag_matrix (d : list Q) : list (list Q) :=
  match d with
  | [] => []
  | x :: d' => (x :: map (fun _ => 0) d') :: map (cons 0) (diag_matrix d')
  end.

Definition diagonal (P : list (list Q)) : list Q :=
  map (fun i => nth i (nth i P []) 0) (seq 0 (length P)).

Definition pos_part (x : Q) : Q := if Qle_bool 0 x then x else 0.

(** [sum_i max(a_i,0)^2 / d_i] *)
Fixpoint gain (a d : list Q) : Q :=
  match a, d with
  | m :: a', x :: d' => pos_part m * pos_part m / x + gain a' d'
  | _, _ => 0
  end.

(** [t * max(a_i,0) / d_i] *)
Fixpoint tilt (t : Q) (a d : list Q) : list Q :=
  match a, d with
  | m :: a', x :: d' => t * (pos_part m / x) :: tilt t a' d'
  | _, _ => []
  end.

(** [sum_i d_i w_i^2] *)
Fixpoint wsq (d w : list Q) : Q :=
  match d, w with
  | x :: d', z :: w' => x * (z * z) + wsq d' w'
  | _, _ => 0
  end.

Definition positive (d : list Q) : Prop := Forall (fun x => 0 < x) d.

Definition nonpositive (a : list Q) : Prop := Forall (fun x => x <= 0) a.

Definition unsupported : exn :=
  PyExc "SolverError" "Solver 'ECOS' failed.".

Definition uncorrelated_solver : solver_t := fun qp =>
  match finite_mat (qp_P qp), finite_vec (qp_a qp) with
  | Some P, Some a =>
      let d := diagonal P in
      let b := qp_rhs qp + qp_c qp in
      if (length a =? qp_n qp)%nat && (length P =? qp_n qp)%nat
         && mat_eqb P (diag_matrix d)
         && forallb (fun x => negb (Qle_bool x 0)) d
         && Qle_bool 0 b
      then
        if Qeq_bool b 0 then Status (Some (map (fun _ => 0) a))
        else if Qeq_bool (gain a d) 0 then Status None
        else Status (Some (tilt (b / gain a d) a d))
      else Raised unsupported
  | _, _ => Raised unsupported
  end.

(** ** An exact solver for two identical assets

    Two assets with the same mean [m > 0] whose variances and covariance
    all equal [v]: the constraint fixes [x + y = b / m] and the objective
    is [v (x + y)^2], so every feasible point is optimal.  This solver
    holds a single asset; which one depends on the size of [v b]. *)
Definition tie_solver : solver_t := fun qp =>
  match finite_mat (qp_P qp), finite_vec (qp_a qp) with
  | Some [[p11; p12]; [p21; p22]], Some [m1; m2] =>
      let b := qp_rhs qp + qp_c qp in
      if (qp_n qp =? 2)%nat
         && Qeq_bool p12 p11 && Qeq_bool p21 p11 && Qeq_bool p22 p11
         && Qeq_bool m2 m1 && negb (Qle_bool m1 0) && Qle_bool 0 b
      then
        if Qle_bool (p11 * b) 3 then Status (Some [b / m1; 0])
        else Status (Some [0; b / m1])
      else Raised unsupported
  | _, _ => Raised unsupported
  end.

(** ** Vocabulary of the statements *)

(** The value the call returns or the exception it raises. *)
Definition result_of {A} (r : outcome A * heap) : outcome A := fst r.

(** A covariance matrix multiplied by the constant [c]. *)
Definition np_mat_scale (c : Q) (Sigma : list (list npfloat)) : list (list npfloat) :=
  map (map (np_scale c)) Sigma.

(** What the division by a zero sum leaves in each entry. *)
Definition zero_division (x : Q) : npfloat :=
  if Qeq_bool x 0 then NaN else if Qle_bool 0 x then PInf else NInf.

(** The vector of length [n] holding [v] at position [i] and 0 elsewhere. *)
Fixpoint single (n i : nat) (v : Q) : list Q :=
  match n with
  | O => []
  | S n' =>
      match i with
      | O => v :: repeat 0 n'
      | S i' => 0 :: single n' i' v
      end
  end.

(** ** Sample tables *)

(** Two uncorrelated assets over three periods: means 2 and 1,
    variances 1 and 3. *)
Definition two_assets : DataFrame :=
  mkDataFrame 3 [("A"%string, [3; 1; 2]); ("B"%string, [2; 2; -1])].

(** Two uncorrelated assets losing half a percent per period on average. *)
Definition two_losers : DataFrame :=
  mkDataFrame 3 [("A"%string, [1 # 200; -3 # 200; -1 # 200]);
                 ("B"%string, [1 # 200; 1 # 200; -5 # 200])].

(** One asset over two periods, mean 2. *)
Definition one_asset : DataFrame :=
  mkDataFrame 2 [("A"%string, [3; 1])].

(** One asset over two periods, mean -1/50. *)
Definition one_loser : DataFrame :=
  mkDataFrame 2 [("A"%string, [-1 # 100; -3 # 100])].

(** Two assets observed once. *)
Definition one_period : DataFrame :=
  mkDataFrame 1 [("A"%string, [1 # 100]); ("B"%string, [2 # 100])].

(** Two identical assets over two periods: means 2, variances and
    covariance 2. *)
Definition twin_assets : DataFrame :=
  mkDataFrame 2 [("A"%string, [3; 1]); ("B"%string, [3; 1])].

(** The same means with deviations twice as large: the covariance matrix
    of [twin_assets] multiplied by 4. *)
Definition spread_twins : DataFrame :=
  mkDataFrame 2 [("A"%string, [4; 0]); ("B"%string, [4; 0])].

(** A raw value of the size of the solver's tolerance, summing to 1e-12. *)
Definition tiny_value : list Q :=
  [-74 # 100000000000000; 174 # 100000000000000].

(** * Price data: [data.py] *)

(** ** Arithmetic on numpy scalars

    Division and subtraction as numpy performs them on float64 values,
    without the sign of zero: a zero divisor counts as positive. *)

Definition np_div (a b : npfloat) : npfloat :=
  match a, b with
  | NaN, _ => NaN
  | _, NaN => NaN
  | Fin x, Fin y => np_true_divide x y
  | Fin _, PInf => Fin 0
  | Fin _, NInf => Fin 0
  | PInf, Fin y => if Qle_bool 0 y then PInf else NInf
  | NInf, Fin y => if Qle_bool 0 y then NInf else PInf
  | PInf, PInf => NaN
  | PInf, NInf => NaN
  | NInf, PInf => NaN
  | NInf, NInf => NaN
  end.

Definition np_sub (a : npfloat) (c : Q) : npfloat :=
  match a with
  | Fin x => Fin (x - c)
  | PInf => PInf
  | NInf => NInf
  | NaN => NaN
  end.

Definition isna (f : npfloat) : bool :=
  match f with NaN => true | _ => false end.

Definition notna (f : npfloat) : bool := negb (isna f).

(** ** Tables with an index *)

(** A DataFrame of floats stored by column, with its index of
    timestamps. *)
Record Frame : Type := mkFrame {
  fr_index : list Z;
  fr_series : list (string * list npfloat)
}.

Definition fr_columns (fr : Frame) : list string := map fst (fr_series fr).

Definition wf_frame (fr : Frame) : Prop :=
  Forall (fun c => length (snd c) = length (fr_index fr)) (fr_series fr).

(** [col.shift(1)]: every position receives the previous value, the first
    one NaN. *)
Fixpoint shift_from (fill : npfloat) (col : list npfloat) : list npfloat :=
  match col with
  | [] => []
  | x :: col' => fill :: shift_from x col'
  end.

Definition shift (col : list npfloat) : list npfloat := shift_from NaN col.

Fixpoint np_div_cols (a b : list npfloat) : list npfloat :=
  match a, b with
  | x :: a', y :: b' => np_div x y :: np_div_cols a' b'
  | _, _ => []
  end.

(** [data.pct_change(fill_method=None)], i.e. [data / data.shift(1) - 1]. *)
Definition pct_change_col (col : list npfloat) : list npfloat :=
  map (fun q => np_sub q 1) (np_div_cols col (shift col)).

Definition pct_change (fr : Frame) : Frame :=
  mkFrame (fr_index fr)
          (map (fun c => (fst c, pct_change_col (snd c))) (fr_series fr)).

Fixpoint and_mask (a b : list bool) : list bool :=
  match a, b with
  | x :: a', y :: b' => (x && y) :: and_mask a' b'
  | _, _ => []
  end.

(** For each row, whether none of its values is missing. *)
Definition row_mask (T : nat) (cols : list (list npfloat)) : list bool :=
  fold_right (fun col m => and_mask (map notna col) m) (repeat true T) cols.

Fixpoint select {A} (m : list bool) (l : list A) : list A :=
  match m, l with
  | b :: m', x :: l' => if b then x :: select m' l' else select m' l'
  | _, _ => []
  end.

(** [df.dropna()]: drop the rows holding a missing value. *)
Definition dropna (fr : Frame) : Frame :=
  let m := row_mask (length (fr_index fr)) (map snd (fr_series fr)) in
  mkFrame (select m (fr_index fr))
          (map (fun c => (fst c, select m (snd c))) (fr_series fr)).

(** [df.dropna(axis=1, how='all')]: drop the columns without any value. *)
Definition dropna_all_columns (fr : Frame) : Frame :=
  mkFrame (fr_index fr)
          (filter (fun c => existsb notna (snd c)) (fr_series fr)).

(** ** [compute_returns]

    The month-end resampling with forward fill of pandas,
    [prices.resample('M').ffill()], is a parameter. *)
Definition freq_error : string := "freq must be 'daily' or 'monthly'".

Definition compute_returns (resample_M_ffill : Frame -> outcome Frame)
    (prices : Frame) (freq : string) : outcome Frame :=
  if String.eqb freq "daily" then
    Ok (dropna (pct_change prices))
  else if String.eqb freq "monthly" then
    match resample_M_ffill prices with
    | Ok monthly => Ok (dropna (pct_change monthly))
    | Raise e => Raise e
    end
  else Raise (ValueError freq_error).

(** A table of finite values as the optimizer reads it. *)
Fixpoint finite_series (l : list (string * list npfloat))
  : option (list (string * list Q)) :=
  match l with
  | [] => Some []
  | (name, col) :: l' =>
      match finite_vec col, finite_series l' with
      | Some c, Some r => Some ((name, c) :: r)
      | _, _ => None
      end
  end.

Definition to_dataframe (fr : Frame) : option DataFrame :=
  match finite_series (fr_series fr) with
  | Some l => Some (mkDataFrame (length (fr_index fr)) l)
  | None => None
  end.

(** ** Output and downloads *)

(** What the program does to the outside, in order: a call of
    [yf.download] with its arguments, a line printed, a call of [to_csv]
    with the path and the table.  The event records the call, whether it
    then succeeds or raises. *)
Inductive event : Type :=
| Download (tickers : list string) (start_date : string)
           (end_date : option string) (interval : string)
| Print (text : string)
| PrintMissing (missing : list string)
| PrintDownloading (n : nat) (start_date : string)
| ToCsv (path : string) (fr : Frame).

Module Io.

Definition M (A : Type) : Type := outcome A * list event.

Definition ret {A} (a : A) : M A := (Ok a, []).

Definition raise {A} (e : exn) : M A := (Raise e, []).

Definition bind {A B} (m : M A) (k : A -> M B) : M B :=
  match m with
  | (Ok a, log) => let (r, log') := k a in (r, log ++ log')
  | (Raise e, log) => (Raise e, log)
  end.

Definition emit (ev : event) : M unit := (Ok tt, [ev]).

Definition lift {A} (r : outcome A) : M A := (r, []).

End Io.

Notation "x <~ m ;; k" := (Io.bind m (fun x => k))
  (at level 61, m at next level, right associativity).
Notation "m ~;; k" := (Io.bind m (fun _ => k))
  (at level 61, right associativity).

(** What [yf.download] hands back: flat columns, one per field, or columns
    indexed by field and ticker. *)
Inductive Downloaded : Type :=
| FlatColumns (idx : list Z) (fields : list (string * list npfloat))
| TickerColumns (idx : list Z)
                (fields : list (string * list (string * list npfloat))).

Definition yf_t : Type :=
  list string -> string -> option string -> string -> outcome Downloaded.

(** [data['Close']]: a Series or a DataFrame. *)
Inductive Closing : Type :=
| CloseSeries (idx : list Z) (vals : list npfloat)
| CloseFrame (fr : Frame).

Fixpoint lookup {A} (key : string) (l : list (string * A)) : option A :=
  match l with
  | [] => None
  | (k, v) :: l' => if String.eqb k key then Some v else lookup key l'
  end.

Definition get_close (data : Downloaded) : option Closing :=
  match data with
  | FlatColumns idx fields =>
      option_map (CloseSeries idx) (lookup "Close" fields)
  | TickerColumns idx fields =>
      option_map (fun cols => CloseFrame (mkFrame idx cols))
                 (lookup "Close" fields)
  end.

Definition mem (s : string) (l : list string) : bool :=
  existsb (String.eqb s) l.

Definition no_close : string := "No 'Close' column found in downloaded data.".

Definition download_price_data (yf : yf_t) (tickers : list string)
    (start_date : string) (end_date : option string) (interval : string)
  : Io.M Frame :=
  Io.emit (Download tickers start_date end_date interval) ~;;
  data <~ Io.lift (yf tickers start_date end_date interval) ;;
  match get_close data with
  | None => Io.raise (ValueError no_close)
  | Some closing =>
      prices <~ match closing with
                | CloseSeries idx vals =>
                    match tickers with
                    | [] => Io.raise (PyExc "IndexError" "list index out of range")
                    | t :: _ => Io.ret (mkFrame idx [(t, vals)])
                    end
                | CloseFrame fr => Io.ret fr
                end ;;
      let missing :=
        filter (fun t => negb (mem t (fr_columns prices))) tickers in
      match missing with
      | [] => Io.ret tt
      | _ :: _ => Io.emit (PrintMissing missing)
      end ~;;
      let prices := dropna_all_columns prices in
      (* the index holds timestamps already: pd.to_datetime leaves it as is *)
      Io.ret prices
  end.

(** ** [get_sp500_tickers] and [main] *)

Definition Table : Type := list (string * list string).

Definition sp500_url : string :=
  "https://en.wikipedia.org/wiki/List_of_S%26P_500_companies".

Definition get_sp500_tickers (read_html : string -> outcome (list Table))
  : Io.M (list string) :=
  tables <~ Io.lift (read_html sp500_url) ;;
  match tables with
  | [] => Io.raise (PyExc "IndexError" "list index out of range")
  | df :: _ =>
      match lookup "Symbol" df with
      | Some col => Io.ret col
      | None => Io.raise (PyExc "KeyError" "Symbol")
      end
  end.

(** The services [main] relies on: the page reader, the downloader, the
    resampler, the date ten years before today, formatted, and the file
    system behind [to_csv], which may refuse a write. *)
Record World : Type := mkWorld {
  read_html : string -> outcome (list Table);
  yf_download : yf_t;
  resample_M_ffill : Frame -> outcome Frame;
  ten_years_ago : string;
  write_csv : string -> Frame -> outcome unit
}.

(** [fr.to_csv(path)] *)
Definition to_csv (world : World) (fr : Frame) (path : string) : Io.M unit :=
  Io.emit (ToCsv path fr) ~;;
  Io.lift (write_csv world path fr).

Definition main (world : World) : Io.M unit :=
  let start_date := ten_years_ago world in
  all_tickers <~ get_sp500_tickers (read_html world) ;;
  let tickers := firstn 500 all_tickers in
  Io.emit (PrintDownloading (length tickers) start_date) ~;;
  equity_prices <~
    download_price_data (yf_download world) tickers start_date None "1d" ;;
  equity_returns <~
    Io.lift (compute_returns (resample_M_ffill world) equity_prices "daily") ;;
  Io.emit (Print "Downloading S&P 500 index data...") ~;;
  let index_symbol := "^GSPC"%string in
  index_prices <~
    download_price_data (yf_download world) [index_symbol] start_date None "1d" ;;
  index_returns <~
    Io.lift (compute_returns (resample_M_ffill world) index_prices "daily") ;;
  to_csv world equity_returns "equity_returns.csv" ~;;
  to_csv world index_returns "index_returns.csv" ~;;
  Io.emit (Print "Data saved: equity_returns.csv, index_returns.csv").

(** ** Vocabulary for the statements about prices *)

(** Simple returns of a price path that starts at [prev]. *)
Fixpoint simple_returns (prev : Q) (rest : list Q) : list Q :=
  match rest with
  | [] => []
  | cur :: rest' => (cur / prev - 1) :: simple_returns cur rest'
  end.

Definition column_returns (col : list Q) : list Q :=
  match col with
  | [] => []
  | p0 :: rest => simple_returns p0 rest
  end.

Definition no_missing (fr : Frame) : Prop :=
  Forall (fun c => Forall (fun f => isna f = false) (snd c)) (fr_series fr).

(** The table of finite values [l] over the index [idx]. *)
Definition finite_frame (idx : list Z) (l : list (string * list Q)) : Frame :=
  mkFrame idx (map (fun c => (fst c, map Fin (snd c))) l).

Definition nonzero (col : list Q) : Prop := Forall (fun p => ~ p == 0) col.

(** The returns of every column of a table of prices. *)
Definition returns_table (l : list (string * list Q)) : list (string * list Q) :=
  map (fun c => (fst c, column_returns (snd c))) l.

(** The rows dropped from a price table by a missing value. *)
Definition first_nan_mask (T : nat) : list bool :=
  match T with
  | O => []
  | S k => false :: repeat true k
  end.

(** The warning printed for the requested tickers without a closing
    column. *)
Definition missing_tickers (tickers : list string) (cols : list string)
  : list string :=
  filter (fun t => negb (mem t cols)) tickers.

Definition warning (missing : list string) : list event :=
  match missing with
  | [] => []
  | _ :: _ => [PrintMissing missing]
  end.

Definition has_value (col : list npfloat) : Prop :=
  exists f, In f col /\ isna f = false.

(** ** Sample downloads *)

(** Prices for AAA, nothing but gaps for BBB, no column for CCC. *)
Definition sample_download : Downloaded :=
  TickerColumns [1; 2; 3]%Z
    [("Close"%string, [("AAA"%string, [Fin 10; Fin 11; Fin 12]);
                       ("BBB"%string, [NaN; NaN; NaN])]);
     ("Volume"%string, [("AAA"%string, [Fin 100; Fin 90; Fin 80]);
                        ("BBB"%string, [NaN; NaN; NaN])])].

Definition sample_yf : yf_t := fun _ _ _ _ => Ok sample_download.

(** Flat columns, as for a single ticker. *)
Definition flat_yf : yf_t := fun _ _ _ _ =>
  Ok (FlatColumns [1; 2]%Z
        [("Open"%string, [Fin 9; Fin 10]); ("Close"%string, [Fin 10; Fin 11])]).

Definition sample_tickers : list string :=
  ["AAA"%string; "BBB"%string; "CCC"%string].

(** ** Vocabulary for the statements about [main] *)

Definition is_warning (ev : event) : Prop := exists m, ev = PrintMissing m.

Definition saved : string :=
  "Data saved: equity_returns.csv, index_returns.csv".

Definition downloading_index : string := "Downloading S&P 500 index data...".

(** A world with a three-company listing and the sample download. *)
Definition sample_world : World :=
  mkWorld
    (fun _ => Ok [[("Symbol"%string, sample_tickers);
                   ("Security"%string,
                    ["Aaa Inc."%string; "Bbb Corp."%string; "Ccc Ltd."%string])]])
    sample_yf
    (fun fr => Ok fr)
    "2016-11-03"
    (fun _ _ => Ok tt).

(** The same world with a file system that accepts the first file and
    refuses [index_returns.csv]. *)
Definition full_disk_world : World :=
  mkWorld (read_html sample_world) (yf_download sample_world)
    (resample_M_ffill sample_world) (ten_years_ago sample_world)
    (fun path _ =>
       if String.eqb path "index_returns.csv"
       then Raise (PyExc "OSError" "No space left on device")
       else Ok tt).

Definition is_infinite (f : npfloat) : bool :=
  match f with
  | PInf => true
  | NInf => true
  | _ => false
  end.
(** ** Running the program *)

Lemma nth_error_fresh (h : heap) (o : object) :
  nth_error (h ++ [o]) (length h) = Some o.
Proof.
  induction h as [|x h IH]; simpl; auto.
Qed.

Lemma update_fresh (h : heap) (o o' : object) :
  Py.update (h ++ [o]) (length h) o' = h ++ [o'].
Proof.
  induction h as [|x h IH]; simpl; auto. now rewrite IH.
Qed.

Lemma optimizer_run (ecos : solver_t) mu Sigma rf cols (h : heap) :
  portfolio_optimizer ecos mu Sigma rf cols h =
  let n := length mu in
  match quad_form_check n Sigma with
  | Some e => (Raise e, h ++ [OVariable n None])
  | None =>
      match ecos (mkQP n Sigma mu rf 1) with
      | Raised e => (Raise e, h ++ [OVariable n None])
      | Status None => (Raise (ValueError no_solution), h ++ [OVariable n None])
      | Status (Some w) =>
          (Ok (mkSeries (np_divide w (np_sum w)) cols),
           h ++ [OVariable n (Some w)])
      end
  end.
Proof.
  unfold portfolio_optimizer, cp_Variable, quad_form, prob_solve, var_value.
  unfold Py.bind, Py.alloc, Py.load, Py.store, Py.raise, Py.ret.
  rewrite nth_error_fresh. cbv zeta.
  destruct (quad_form_check (length mu) Sigma) as [e|]; [reflexivity|].
  unfold canonical. cbn [objective constraints].
  rewrite Nat.eqb_refl. cbn [andb].
  rewrite nth_error_fresh.
  destruct (ecos _) as [e|[w|]]; cbn.
  - reflexivity.
  - rewrite update_fresh, nth_error_fresh. reflexivity.
  - rewrite update_fresh, nth_error_fresh. reflexivity.
Qed.

Lemma program_run (ecos : solver_t) (h : heap) returns df rf :
  holds_frame h returns df ->
  mean_variance_sharpe_maximization ecos returns rf h =
  let n := length (df_mean df) in
  match quad_form_check n (df_cov df) with
  | Some e => (Raise e, h ++ [OVariable n None])
  | None =>
      match ecos (problem_of df rf) with
      | Raised e => (Raise e, h ++ [OVariable n None])
      | Status None => (Raise (ValueError no_solution), h ++ [OVariable n None])
      | Status (Some w) =>
          (Ok (mkSeries (np_divide w (np_sum w)) (columns df)),
           h ++ [OVariable n (Some w)])
      end
  end.
Proof.
  intros Hdf. unfold mean_variance_sharpe_maximization, as_frame.
  unfold Py.bind at 1. unfold Py.bind at 1. unfold Py.load.
  rewrite Hdf. cbn [Py.ret].
  apply optimizer_run.
Qed.

(** ** Facts about the estimators *)

Lemma Qeq_bool_false (x y : Q) : ~ x == y -> Qeq_bool x y = false.
Proof.
  intros H. destruct (Qeq_bool x y) eqn:E; auto.
  apply Qeq_bool_eq in E. contradiction.
Qed.

Lemma Qeq_bool_true (x y : Q) : x == y -> Qeq_bool x y = true.
Proof. apply Qeq_eq_bool. Qed.

Lemma np_true_divide_fin (x y : Q) :
  ~ y == 0 -> np_true_divide x y = Fin (x / y).
Proof.
  intros H. unfold np_true_divide. now rewrite Qeq_bool_false.
Qed.

Lemma cov_fact_pos (T : nat) : (2 <= T)%nat -> 0 < cov_fact T.
Proof.
  intros H. unfold cov_fact. rewrite Z.max_l by lia.
  change 0 with (inject_Z 0). rewrite <- Zlt_Qlt. lia.
Qed.

Lemma cov_entry_fin (T : nat) (ci cj : list Q) :
  (2 <= T)%nat ->
  cov_entry T ci cj = Fin (dot (centre ci) (centre cj) * (1 / cov_fact T)).
Proof.
  intros H. unfold cov_entry.
  rewrite np_true_divide_fin; [reflexivity|].
  pose proof (cov_fact_pos _ H). lra.
Qed.

Lemma dot_comm (a b : list Q) : dot a b == dot b a.
Proof.
  revert b. induction a as [|x a IH]; intros [|y b]; simpl; try reflexivity.
  rewrite IH. ring.
Qed.

Lemma df_mean_length (df : DataFrame) :
  length (df_mean df) = length (columns df).
Proof. unfold df_mean, columns. now rewrite !length_map. Qed.

Lemma df_cov_length (df : DataFrame) :
  length (df_cov df) = length (columns df).
Proof. unfold df_cov, columns. now rewrite !length_map. Qed.

Lemma df_cov_square (df : DataFrame) :
  Forall (fun row => length row = length (columns df)) (df_cov df).
Proof.
  unfold df_cov, columns. apply Forall_forall. intros row Hin.
  apply in_map_iff in Hin. destruct Hin as [ci [<- _]].
  now rewrite !length_map.
Qed.

Lemma df_cov_entry (df : DataFrame) (i j : nat) (ci cj : string * list Q) :
  nth_error (series df) i = Some ci ->
  nth_error (series df) j = Some cj ->
  entry (df_cov df) i j = cov_entry (nobs df) (snd ci) (snd cj).
Proof.
  intros Hi Hj. unfold entry, df_cov.
  erewrite (nth_error_nth _ i []) by (rewrite nth_error_map, Hi; reflexivity).
  erewrite (nth_error_nth _ j NaN) by (rewrite nth_error_map, Hj; reflexivity).
  reflexivity.
Qed.

Lemma finite_vec_length (v : list npfloat) (l : list Q) :
  finite_vec v = Some l -> length l = length v.
Proof.
  revert l. induction v as [|f v IH]; intros l H; simpl in *.
  - now inversion H.
  - destruct f; try discriminate.
    destruct (finite_vec v) eqn:E; try discriminate.
    inversion H; subst. simpl. f_equal. now apply IH.
Qed.

(** ** Vector algebra *)

Lemma dot_scale_r (k : Q) (a w : list Q) : dot a (scale k w) == k * dot a w.
Proof.
  revert w. induction a as [|x a IH]; intros [|y w]; simpl; try ring.
  rewrite IH. ring.
Qed.

Lemma dot_scale_l (k : Q) (a w : list Q) : dot (scale k a) w == k * dot a w.
Proof.
  revert w. induction a as [|x a IH]; intros [|y w]; simpl; try ring.
  rewrite IH. ring.
Qed.

Lemma dot_mat_vec_scale (k : Q) (a w : list Q) (P : list (list Q)) :
  dot a (mat_vec P (scale k w)) == k * dot a (mat_vec P w).
Proof.
  unfold mat_vec. revert a.
  induction P as [|row P IH]; intros [|x a]; simpl; try ring.
  rewrite IH, dot_scale_r. ring.
Qed.

Lemma quad_scale (k : Q) (w : list Q) (P : list (list Q)) :
  quad (scale k w) P == k * k * quad w P.
Proof.
  unfold quad. rewrite dot_scale_l, dot_mat_vec_scale. ring.
Qed.

Lemma dot_mat_scale (c : Q) (a w : list Q) (P : list (list Q)) :
  dot a (mat_vec (mat_scale c P) w) == c * dot a (mat_vec P w).
Proof.
  unfold mat_vec, mat_scale. revert a.
  induction P as [|row P IH]; intros [|x a]; simpl; try ring.
  rewrite IH, dot_scale_l. ring.
Qed.

Lemma quad_mat_scale (c : Q) (w : list Q) (P : list (list Q)) :
  quad w (mat_scale c P) == c * quad w P.
Proof. unfold quad. apply dot_mat_scale. Qed.

Lemma np_sum_scale (k : Q) (w : list Q) : np_sum (scale k w) == k * np_sum w.
Proof.
  induction w as [|x w IH]; simpl; try ring. rewrite IH. ring.
Qed.

Lemma scale_length (k : Q) (w : list Q) : length (scale k w) = length w.
Proof. apply length_map. Qed.

Lemma nonneg_scale (k : Q) (w : list Q) :
  0 <= k -> nonneg w -> nonneg (scale k w).
Proof.
  intros Hk Hw. unfold nonneg, scale in *. induction Hw; simpl; constructor; auto.
  now apply Qmult_le_0_compat.
Qed.

Lemma np_sum_nonneg (w : list Q) : nonneg w -> 0 <= np_sum w.
Proof.
  induction 1; simpl; lra.
Qed.

Lemma dot_nonpos_nonneg (a w : list Q) :
  Forall (fun x => x <= 0) a -> nonneg w -> dot a w <= 0.
Proof.
  intros Ha. revert w. induction Ha as [|x a Hx Ha IH]; intros [|y w] Hw;
    simpl; try lra.
  inversion Hw; subst. specialize (IH w H2). nra.
Qed.

(** ** The solver for uncorrelated assets is sound *)

Lemma vec_eqb_sound (a b : list Q) : vec_eqb a b = true -> vec_eq a b.
Proof.
  revert b. induction a as [|x a IH]; intros [|y b] H; simpl in H;
    try discriminate; constructor.
  - apply andb_prop in H. now apply Qeq_bool_eq.
  - apply andb_prop in H. now apply IH.
Qed.

Lemma mat_eqb_sound (A B : list (list Q)) : mat_eqb A B = true -> mat_eq A B.
Proof.
  revert B. induction A as [|r A IH]; intros [|s B] H; simpl in H;
    try discriminate; constructor.
  - apply andb_prop in H. now apply vec_eqb_sound.
  - apply andb_prop in H. now apply IH.
Qed.

Lemma dot_vec_eq_l (a a' w : list Q) : vec_eq a a' -> dot a w == dot a' w.
Proof.
  intros H. revert w. induction H as [|x y a a' Hxy H IH]; intros [|z w];
    simpl; try reflexivity.
  rewrite Hxy, IH. reflexivity.
Qed.

Lemma dot_map_ext {A} (f g : A -> Q) (a : list Q) (l : list A) :
  (forall r, f r == g r) -> dot a (map f l) == dot a (map g l).
Proof.
  intros H. revert a. induction l as [|r l IH]; intros [|x a]; simpl;
    try reflexivity.
  rewrite H, IH. reflexivity.
Qed.

Lemma dot_mat_eq (a w : list Q) (P P' : list (list Q)) :
  mat_eq P P' -> dot a (mat_vec P w) == dot a (mat_vec P' w).
Proof.
  intros H. revert a. unfold mat_vec.
  induction H as [|r r' P P' Hr H IH]; intros [|x a]; simpl; try reflexivity.
  rewrite (dot_vec_eq_l _ _ w Hr), IH. reflexivity.
Qed.

Lemma quad_mat_eq (w : list Q) (P P' : list (list Q)) :
  mat_eq P P' -> quad w P == quad w P'.
Proof. unfold quad. apply dot_mat_eq. Qed.

Lemma dot_zeros_l {A} (l : list A) (w : list Q) :
  dot (map (fun _ => 0) l) w == 0.
Proof.
  revert w. induction l as [|x l IH]; intros [|z w]; simpl; try reflexivity.
  rewrite IH. ring.
Qed.

Lemma dot_zeros_r {A} (a : list Q) (l : list A) :
  dot a (map (fun _ => 0) l) == 0.
Proof.
  revert a. induction l as [|x l IH]; intros [|z a]; simpl; try reflexivity.
  rewrite IH. ring.
Qed.

Lemma quad_diag (d w : list Q) : quad w (diag_matrix d) == wsq d w.
Proof.
  unfold quad, mat_vec. revert w.
  induction d as [|x d IH]; intros [|z w]; simpl; try reflexivity.
  rewrite map_map, dot_zeros_l.
  rewrite (dot_map_ext (fun r => dot (0 :: r) (z :: w)) (fun r => dot r w)).
  - rewrite IH. ring.
  - intros r. simpl. ring.
Qed.

Lemma pos_part_nonneg (x : Q) : 0 <= pos_part x.
Proof.
  unfold pos_part. destruct (Qle_bool 0 x) eqn:E.
  - now apply Qle_bool_iff.
  - lra.
Qed.

Lemma pos_part_ge (x : Q) : x <= pos_part x.
Proof.
  unfold pos_part. destruct (Qle_bool 0 x) eqn:E; try lra.
  destruct (Qlt_le_dec x 0) as [H|H]; try lra.
  apply Qle_bool_iff in H. congruence.
Qed.

Lemma pos_part_mul (x : Q) : x * pos_part x == pos_part x * pos_part x.
Proof.
  unfold pos_part. destruct (Qle_bool 0 x); ring.
Qed.

Lemma forallb_positive (d : list Q) :
  forallb (fun x => negb (Qle_bool x 0)) d = true -> positive d.
Proof.
  unfold positive. induction d as [|x d IH]; simpl; intros H; constructor.
  - apply andb_prop in H. destruct H as [H _].
    destruct (Qlt_le_dec 0 x) as [Hx|Hx]; auto.
    apply Qle_bool_iff in Hx. rewrite Hx in H. discriminate.
  - apply andb_prop in H. now apply IH.
Qed.

Lemma gain_nonneg (a d : list Q) : positive d -> 0 <= gain a d.
Proof.
  intros Hd. revert a. induction Hd as [|x d Hx Hd IH]; intros [|m a]; simpl;
    try lra.
  specialize (IH a). pose proof (pos_part_nonneg m) as Hm.
  assert (0 <= pos_part m * pos_part m / x).
  { apply Qle_shift_div_l; auto. nra. }
  lra.
Qed.

Lemma tilt_length (t : Q) (a d : list Q) :
  length a = length d -> length (tilt t a d) = length a.
Proof.
  revert d. induction a as [|m a IH]; intros [|x d] H; simpl in *;
    try discriminate; auto.
Qed.

Lemma tilt_nonneg (t : Q) (a d : list Q) :
  0 <= t -> positive d -> nonneg (tilt t a d).
Proof.
  intros Ht Hd. revert a.
  induction Hd as [|x d Hx Hd IH]; intros [|m a]; simpl; try constructor.
  - apply Qmult_le_0_compat; auto.
    apply Qle_shift_div_l; auto.
    pose proof (pos_part_nonneg m). lra.
  - apply IH.
Qed.

Lemma dot_tilt (t : Q) (a d : list Q) :
  positive d -> dot a (tilt t a d) == t * gain a d.
Proof.
  intros Hd. revert a.
  induction Hd as [|x d Hx Hd IH]; intros [|m a]; simpl; try ring.
  rewrite IH. pose proof (pos_part_mul m) as Hm.
  assert (E : m * (t * (pos_part m / x)) == t * (pos_part m * pos_part m / x)).
  { rewrite <- Hm. field. lra. }
  rewrite E. ring.
Qed.

Lemma wsq_tilt (t : Q) (a d : list Q) :
  positive d -> wsq d (tilt t a d) == t * t * gain a d.
Proof.
  intros Hd. revert a.
  induction Hd as [|x d Hx Hd IH]; intros [|m a]; simpl; try ring.
  rewrite IH. field. lra.
Qed.

Lemma wsq_nonneg (d w : list Q) : positive d -> 0 <= wsq d w.
Proof.
  intros Hd. revert w.
  induction Hd as [|x d Hx Hd IH]; intros [|z w]; simpl; try lra.
  specialize (IH w). nra.
Qed.

(** The square completed: [d (z - t p / d)^2 >= 0] for each asset. *)
Lemma tilt_step (t x m p z : Q) :
  0 < x -> 0 <= t -> 0 <= z -> m <= p ->
  2 * t * (m * z) - t * t * (p * p / x) <= x * (z * z).
Proof.
  intros Hx Ht Hz Hm.
  assert (Htz : 0 <= t * z) by (apply Qmult_le_0_compat; auto).
  assert (H0 : 0 <= (p - m) * (t * z)) by (apply Qmult_le_0_compat; lra).
  assert (H1 : 2 * t * (m * z) <= 2 * t * (p * z)) by nra.
  assert (H2 : x * (z * z) - 2 * t * (p * z) + t * t * (p * p / x)
               == x * ((z - t * p / x) * (z - t * p / x))).
  { field. lra. }
  assert (H3 : 0 <= x * ((z - t * p / x) * (z - t * p / x))).
  { apply Qmult_le_0_compat; [lra|].
    generalize (z - t * p / x). intros y. nra. }
  lra.
Qed.

Lemma wsq_lower (t : Q) (a d w : list Q) :
  length a = length w -> length d = length w ->
  positive d -> nonneg w -> 0 <= t ->
  2 * t * dot a w - t * t * gain a d <= wsq d w.
Proof.
  intros Ha Hd Hp Hw Ht. revert a d Ha Hd Hp.
  induction Hw as [|z w Hz Hw IH]; intros [|m a] [|x d] Ha Hd Hp;
    simpl in *; try discriminate; try lra.
  inversion Hp; subst.
  specialize (IH a d ltac:(lia) ltac:(lia) ltac:(assumption)).
  pose proof (tilt_step t x m (pos_part m) z ltac:(assumption) Ht Hz
                (pos_part_ge m)).
  lra.
Qed.

Lemma diagonal_length (P : list (list Q)) : length (diagonal P) = length P.
Proof. unfold diagonal. now rewrite length_map, length_seq. Qed.

Lemma nonneg_zeros {A} (l : list A) : nonneg (map (fun _ => 0) l).
Proof.
  unfold nonneg. induction l; simpl; constructor; auto. lra.
Qed.

Lemma quad_zeros {A} (l : list A) (P : list (list Q)) :
  quad (map (fun _ => 0) l) P == 0.
Proof. unfold quad. apply dot_zeros_l. Qed.

Theorem uncorrelated_solver_sound : solver_sound uncorrelated_solver.
Proof.
  intros qp w H. unfold uncorrelated_solver in H.
  destruct (finite_mat (qp_P qp)) as [P|] eqn:HP; try discriminate.
  destruct (finite_vec (qp_a qp)) as [a|] eqn:Ha; try discriminate.
  set (d := diagonal P) in *. set (b := qp_rhs qp + qp_c qp) in *.
  destruct (_ && _) eqn:C in H; try discriminate.
  repeat (apply andb_prop in C; destruct C as [C ?]).
  apply Nat.eqb_eq in C.
  match goal with H : (length P =? _)%nat = true |- _ =>
    apply Nat.eqb_eq in H; rename H into HlP end.
  match goal with H : mat_eqb _ _ = true |- _ =>
    apply mat_eqb_sound in H; rename H into Hdiag end.
  match goal with H : forallb _ _ = true |- _ =>
    apply forallb_positive in H; rename H into Hpos end.
  match goal with H : Qle_bool _ _ = true |- _ =>
    apply Qle_bool_iff in H; rename H into Hb end.
  assert (Hld : length d = qp_n qp) by (unfold d; now rewrite diagonal_length).
  assert (Hquad : forall v, quad v P == wsq d v).
  { intros v. rewrite (quad_mat_eq v _ _ Hdiag). apply quad_diag. }
  destruct (Qeq_bool b 0) eqn:Hb0.
  - (* nothing to earn: the zero vector *)
    apply Qeq_bool_eq in Hb0. inversion H; subst w; clear H.
    split.
    + split; [now rewrite length_map|]. split; [apply nonneg_zeros|].
      exists a. split; auto. rewrite dot_zeros_r. unfold b in Hb0. lra.
    + exists P. split; auto. intros w' _.
      rewrite quad_zeros, Hquad. now apply wsq_nonneg.
  - destruct (Qeq_bool (gain a d) 0) eqn:Hg; try discriminate.
    inversion H; subst w; clear H.
    assert (Hb0' : ~ b == 0).
    { intros E. apply Qeq_bool_true in E. congruence. }
    assert (Hg' : ~ gain a d == 0).
    { intros E. apply Qeq_bool_true in E. congruence. }
    pose proof (gain_nonneg a d Hpos) as Hg0.
    assert (Hgpos : 0 < gain a d) by lra.
    assert (Ht : 0 <= b / gain a d).
    { apply Qle_shift_div_l; auto. lra. }
    assert (Htg : b / gain a d * gain a d == b) by (field; lra).
    split.
    + split; [rewrite tilt_length; lia|].
      split; [now apply tilt_nonneg|].
      exists a. split; auto. rewrite dot_tilt by assumption.
      rewrite Htg. unfold b. ring.
    + exists P. split; auto.
      intros w' [Hlen [Hnn [a' [Ha' Heq]]]].
      rewrite Ha in Ha'. inversion Ha'; subst a'.
      rewrite !Hquad, wsq_tilt by assumption.
      pose proof (wsq_lower (b / gain a d) a d w'
                    ltac:(lia) ltac:(lia) Hpos Hnn Ht) as Hlow.
      assert (Hdot : dot a w' == b) by (unfold b; lra).
      rewrite Hdot in Hlow.
      set (t := b / gain a d) in *. set (g := gain a d) in *.
      assert (E : t * t * g == t * b).
      { transitivity (t * (t * g)); [ring|]. now rewrite Htg. }
      lra.
Qed.

(** ** Long-only vectors summing to zero *)

Lemma nonneg_sum_zero_dot (a w : list Q) :
  nonneg w -> np_sum w == 0 -> dot a w == 0.
Proof.
  intros Hw. revert a. induction Hw as [|x w Hx Hw IH]; intros [|m a] Hs;
    simpl in *; try reflexivity.
  pose proof (np_sum_nonneg w Hw) as Hn.
  assert (Ex : x == 0) by lra. assert (Es : np_sum w == 0) by lra.
  rewrite (IH a Es), Ex. ring.
Qed.

(** ** Feasibility of the program *)

Lemma dot_repeat_zero (a : list Q) (n : nat) : dot a (repeat 0 n) == 0.
Proof.
  revert a. induction n as [|n IH]; intros [|m a]; simpl; try reflexivity.
  rewrite IH. ring.
Qed.

Lemma single_length (n i : nat) (v : Q) : length (single n i v) = n.
Proof.
  revert i. induction n as [|n IH]; intros [|i]; simpl; auto.
  now rewrite repeat_length.
Qed.

Lemma nonneg_repeat_zero (n : nat) : nonneg (repeat 0 n).
Proof. unfold nonneg. induction n; simpl; constructor; auto. lra. Qed.

Lemma single_nonneg (n i : nat) (v : Q) : 0 <= v -> nonneg (single n i v).
Proof.
  intros Hv. revert i. induction n as [|n IH]; intros [|i]; simpl;
    constructor; auto; try lra.
  - apply nonneg_repeat_zero.
  - apply IH.
Qed.

Lemma dot_single (a : list Q) (i : nat) (m v : Q) :
  nth_error a i = Some m -> dot a (single (length a) i v) == m * v.
Proof.
  revert i. induction a as [|x a IH]; intros [|i] H; simpl in *;
    try discriminate.
  - inversion H; subst. rewrite dot_repeat_zero. ring.
  - rewrite (IH i H). ring.
Qed.

(** With [1 + rf > 0] and no positive mean nothing is feasible. *)
Lemma infeasible_nonpositive (qp : QP) (a w : list Q) :
  finite_vec (qp_a qp) = Some a -> nonpositive a ->
  0 < qp_rhs qp + qp_c qp -> ~ feasible qp w.
Proof.
  intros Ha Hneg Hb [_ [Hw [a' [Ha' Heq]]]].
  rewrite Ha in Ha'. inversion Ha'; subst a'.
  pose proof (dot_nonpos_nonneg a w Hneg Hw). lra.
Qed.

(** A feasible point of a program with [rhs + c > 0] has a positive sum. *)
Lemma feasible_sum_pos (qp : QP) (w : list Q) :
  feasible qp w -> 0 < qp_rhs qp + qp_c qp -> 0 < np_sum w.
Proof.
  intros [_ [Hw [a [_ Heq]]]] Hb.
  pose proof (np_sum_nonneg w Hw) as Hs.
  destruct (Qeq_dec (np_sum w) 0) as [E|E]; [|lra].
  pose proof (nonneg_sum_zero_dot a w Hw E). lra.
Qed.

(** ** What [cp.quad_form] accepts *)

Lemma np_isclose_eq (x y : Q) : x == y -> np_isclose (Fin x) (Fin y) = true.
Proof.
  intros E. cbn [np_isclose]. apply Qle_bool_iff.
  assert (H0 : x - y == 0) by lra.
  rewrite H0. cbn [Qabs Z.abs Qnum Qden].
  pose proof (Qabs_nonneg y) as Hy.
  assert (0 <= rtol * Qabs y).
  { apply Qmult_le_0_compat; [unfold rtol, Qle; simpl; lia|exact Hy]. }
  assert (0 <= atol) by (unfold atol, Qle; simpl; lia).
  change (0 # 1) with 0. lra.
Qed.

Lemma np_isclose_cov (T : nat) (ci cj : list Q) :
  (2 <= T)%nat -> np_isclose (cov_entry T ci cj) (cov_entry T cj ci) = true.
Proof.
  intros HT. rewrite !cov_entry_fin by assumption.
  apply np_isclose_eq. now rewrite (dot_comm (centre ci)).
Qed.

Lemma np_allclose_df_cov (df : DataFrame) :
  (2 <= nobs df)%nat -> np_allclose_T (df_cov df) = true.
Proof.
  intros HT. unfold np_allclose_T.
  apply forallb_forall. intros i Hi. apply forallb_forall. intros j Hj.
  apply in_seq in Hi. apply in_seq in Hj.
  rewrite df_cov_length in Hi, Hj. unfold columns in Hi, Hj.
  rewrite length_map in Hi, Hj.
  destruct (nth_error (series df) i) as [ci|] eqn:Ei;
    [|apply nth_error_None in Ei; lia].
  destruct (nth_error (series df) j) as [cj|] eqn:Ej;
    [|apply nth_error_None in Ej; lia].
  rewrite (df_cov_entry df i j ci cj Ei Ej), (df_cov_entry df j i cj ci Ej Ei).
  now apply np_isclose_cov.
Qed.

Lemma hermitian_of_allclose (P : list (list npfloat)) :
  np_allclose_T P = true -> is_hermitian P = true.
Proof.
  intros H. destruct P as [|[|x [|y r]] [|r2 P]]; auto.
Qed.

Lemma is_square_df_cov (df : DataFrame) : is_square (df_cov df) = true.
Proof.
  unfold is_square. apply forallb_forall. intros row Hrow.
  apply Nat.eqb_eq. rewrite df_cov_length.
  pose proof (df_cov_square df) as H. rewrite Forall_forall in H. auto.
Qed.

Lemma quad_form_check_df (df : DataFrame) :
  (1 <= length (columns df))%nat ->
  quad_form_check (length (df_mean df)) (df_cov df)
  = if is_hermitian (df_cov df) then None else Some not_hermitian.
Proof.
  intros Hn. unfold quad_form_check.
  rewrite is_square_df_cov, df_mean_length, df_cov_length.
  rewrite Nat.max_l by lia. now rewrite Nat.eqb_refl.
Qed.

(** With two observations or more the covariance matrix is symmetric and
    passes the checks. *)
Lemma cov_accepted (df : DataFrame) :
  (2 <= nobs df)%nat -> (1 <= length (columns df))%nat ->
  quad_form_check (length (df_mean df)) (df_cov df) = None.
Proof.
  intros HT Hn. rewrite quad_form_check_df by assumption.
  now rewrite hermitian_of_allclose by now apply np_allclose_df_cov.
Qed.

(** The 1 x 1 matrix of a single asset passes whatever it holds. *)
Lemma single_asset_accepted (df : DataFrame) :
  length (columns df) = 1%nat ->
  quad_form_check (length (df_mean df)) (df_cov df) = None.
Proof.
  intros Hn. rewrite quad_form_check_df by lia.
  unfold df_cov, columns in *.
  destruct (series df) as [|c [|c' l]]; simpl in Hn; try discriminate.
  reflexivity.
Qed.

(** ** Fewer than two observations *)

Lemma cov_entry_nan (T : nat) (ci cj : list Q) :
  (T < 2)%nat -> length ci = T -> length cj = T -> cov_entry T ci cj = NaN.
Proof.
  intros HT Hi Hj. unfold cov_entry.
  assert (Hf : np_true_divide 1 (cov_fact T) = PInf).
  { destruct T as [|[|T]]; try lia; reflexivity. }
  rewrite Hf. cbn [np_scale].
  assert (Hz : dot (centre ci) (centre cj) == 0).
  { destruct ci as [|x [|? ?]]; destruct cj as [|y [|? ?]]; simpl in *;
      try lia; try reflexivity.
    unfold centre, np_average. simpl. field. }
  now rewrite (Qeq_bool_true _ _ Hz).
Qed.

(** With fewer than two observations and two assets or more the matrix
    is all NaN and fails the comparison with its transpose. *)
Lemma cov_rejected (df : DataFrame) :
  wf_df df -> (nobs df < 2)%nat -> (2 <= length (columns df))%nat ->
  quad_form_check (length (df_mean df)) (df_cov df) = Some not_hermitian.
Proof.
  intros Hwf HT Hn. rewrite quad_form_check_df by lia.
  unfold df_cov, columns, wf_df in *.
  destruct (series df) as [|c [|c' l]]; simpl in Hn; try lia.
  inversion Hwf as [|? ? Hc Hl]; subst.
  cbn [map is_hermitian].
  unfold np_allclose_T. cbn [length seq forallb entry nth].
  rewrite (cov_entry_nan (nobs df) (snd c) (snd c)) by auto.
  reflexivity.
Qed.

Lemma df_cov_not_finite (df : DataFrame) :
  wf_df df -> (nobs df < 2)%nat -> (1 <= length (columns df))%nat ->
  finite_mat (df_cov df) = None.
Proof.
  intros Hwf HT Hn. unfold df_cov, columns, wf_df in *.
  destruct (series df) as [|c l]; simpl in Hn; [lia|].
  inversion Hwf; subst.
  cbn [map finite_mat finite_vec].
  rewrite cov_entry_nan by auto. reflexivity.
Qed.

(** ** Dividing by a zero sum *)

Lemma np_divide_zero (w : list Q) (s : Q) :
  s == 0 -> np_divide w s = map zero_division w.
Proof.
  intros Hs. unfold np_divide. apply map_ext. intros x.
  unfold np_true_divide, zero_division. now rewrite (Qeq_bool_true _ _ Hs).
Qed.

Lemma zero_division_not_finite (w : list Q) :
  Forall (fun f => is_finite f = false) (map zero_division w).
Proof.
  induction w as [|x w IH]; simpl; constructor; auto.
  unfold zero_division. destruct (Qeq_bool x 0); auto.
  destruct (Qle_bool 0 x); auto.
Qed.

(** ** Rescaling the program *)

Lemma scale_scale_inv (k : Q) (w : list Q) :
  ~ k == 0 -> vec_eq w (scale k (scale (1 / k) w)).
Proof.
  intros Hk. unfold vec_eq, scale.
  induction w as [|x w IH]; simpl; constructor; auto.
  field. assumption.
Qed.

Lemma feasible_scale (n : nat) P P' (a : list npfloat) (c c' rhs rhs' k : Q)
      (w : list Q) :
  0 <= k -> rhs' + c' == k * (rhs + c) ->
  feasible (mkQP n P a c rhs) w ->
  feasible (mkQP n P' a c' rhs') (scale k w).
Proof.
  intros Hk Hb [Hlen [Hnn [aq [Ha Heq]]]]. cbn in *.
  split; [cbn; now rewrite scale_length|].
  split; [now apply nonneg_scale|].
  exists aq. cbn. split; auto.
  rewrite dot_scale_r. nra.
Qed.

Lemma qp_solution_scale (n : nat) P (a : list npfloat) (c c' rhs rhs' k : Q)
      (w : list Q) :
  0 < k -> rhs' + c' == k * (rhs + c) ->
  qp_solution (mkQP n P a c rhs) w ->
  qp_solution (mkQP n P a c' rhs') (scale k w).
Proof.
  intros Hk Hb [Hfeas [Pq [HP Hmin]]]. cbn [qp_P] in *.
  split; [eapply feasible_scale; eauto; lra|].
  exists Pq. split; auto. intros w' Hw'.
  assert (Hk' : 0 <= 1 / k).
  { apply Qle_shift_div_l; lra. }
  assert (Hback : feasible (mkQP n P a c rhs) (scale (1 / k) w')).
  { eapply feasible_scale; eauto.
    rewrite Hb. field. lra. }
  specialize (Hmin _ Hback).
  rewrite quad_scale in Hmin. rewrite quad_scale.
  set (q := quad w Pq) in *. set (q' := quad w' Pq) in *.
  assert (E : k * k * (1 / k * (1 / k) * q') == q') by (field; lra).
  rewrite <- E.
  apply Qmult_le_l; [nra|assumption].
Qed.

Lemma np_scale_finite_vec (c : Q) (r : list npfloat) (r' : list Q) :
  finite_vec (map (np_scale c) r) = Some r' ->
  exists rq, finite_vec r = Some rq /\ r' = scale c rq.
Proof.
  revert r'. induction r as [|f r IH]; intros r' H; cbn [map finite_vec] in H.
  - inversion H. exists []. auto.
  - destruct f; cbn [np_scale] in H.
    + destruct (finite_vec (map (np_scale c) r)) eqn:E; try discriminate.
      inversion H; subst. destruct (IH _ eq_refl) as [rq [Hr ->]].
      exists (q :: rq). cbn [finite_vec]. rewrite Hr. auto.
    + destruct (Qeq_bool c 0); try discriminate.
      destruct (Qle_bool 0 c); discriminate.
    + destruct (Qeq_bool c 0); try discriminate.
      destruct (Qle_bool 0 c); discriminate.
    + discriminate.
Qed.

Lemma np_mat_scale_finite (c : Q) (S : list (list npfloat)) (P' : list (list Q)) :
  finite_mat (np_mat_scale c S) = Some P' ->
  exists P, finite_mat S = Some P /\ P' = mat_scale c P.
Proof.
  unfold np_mat_scale. revert P'.
  induction S as [|r S IH]; intros P' H; cbn [map finite_mat] in H.
  - inversion H. exists []. auto.
  - destruct (finite_vec (map (np_scale c) r)) eqn:Er; try discriminate.
    destruct (finite_mat (map (map (np_scale c)) S)) eqn:ES; try discriminate.
    inversion H; subst.
    destruct (np_scale_finite_vec _ _ _ Er) as [rq [Hr ->]].
    destruct (IH _ eq_refl) as [P [HP ->]].
    exists (rq :: P). cbn [finite_mat]. rewrite Hr, HP. auto.
Qed.

(** Multiplying the covariance matrix by a positive constant leaves the
    solutions of the program unchanged. *)
Lemma qp_solution_mat_scale (n : nat) S (a : list npfloat) (c rhs k : Q)
      (w : list Q) :
  0 < k ->
  qp_solution (mkQP n (np_mat_scale k S) a c rhs) w ->
  qp_solution (mkQP n S a c rhs) w.
Proof.
  intros Hk [Hfeas [P' [HP' Hmin]]]. cbn [qp_P] in *.
  destruct (np_mat_scale_finite _ _ _ HP') as [P [HP ->]].
  split; [exact Hfeas|].
  exists P. split; auto. intros w' Hw'.
  specialize (Hmin w' Hw'). rewrite !quad_mat_scale in Hmin.
  apply Qmult_le_l in Hmin; assumption.
Qed.

(** ** Programs with the same solutions *)

Lemma dot_vec_eq_r (a w w' : list Q) : vec_eq w w' -> dot a w == dot a w'.
Proof.
  intros H. rewrite (dot_comm a w), (dot_comm a w'). now apply dot_vec_eq_l.
Qed.

Lemma quad_vec_eq (u v : list Q) (P : list (list Q)) :
  vec_eq u v -> quad u P == quad v P.
Proof.
  intros H. unfold quad, mat_vec.
  rewrite (dot_vec_eq_l u v _ H).
  apply dot_map_ext. intros r. now apply dot_vec_eq_r.
Qed.

Lemma vec_eq_length (u v : list Q) : vec_eq u v -> length u = length v.
Proof. induction 1; simpl; auto. Qed.

Lemma nonneg_vec_eq (u v : list Q) : vec_eq u v -> nonneg u -> nonneg v.
Proof.
  unfold nonneg. induction 1 as [|x y u v Hxy H IH]; intros Hu; constructor;
    inversion Hu; subst; auto.
  now rewrite <- Hxy.
Qed.

Lemma feasible_vec_eq (qp : QP) (u v : list Q) :
  vec_eq u v -> feasible qp u -> feasible qp v.
Proof.
  intros H [Hl [Hn [a [Ha He]]]].
  split; [now rewrite <- (vec_eq_length u v H)|].
  split; [now apply (nonneg_vec_eq u v)|].
  exists a. split; auto. now rewrite <- (dot_vec_eq_r a u v H).
Qed.

Lemma qp_solution_vec_eq (qp : QP) (u v : list Q) :
  vec_eq u v -> qp_solution qp u -> qp_solution qp v.
Proof.
  intros H [Hf [P [HP Hmin]]].
  split; [now apply (feasible_vec_eq qp u v)|].
  exists P. split; auto. intros w' Hw'.
  rewrite <- (quad_vec_eq u v P H). now apply Hmin.
Qed.

Lemma vec_eq_sym (u v : list Q) : vec_eq u v -> vec_eq v u.
Proof. induction 1; constructor; auto. now symmetry. Qed.

Lemma scale_inv_scale (k : Q) (w : list Q) :
  ~ k == 0 -> vec_eq (scale k (scale (1 / k) w)) w.
Proof. intros Hk. apply vec_eq_sym. now apply scale_scale_inv. Qed.

Lemma np_scale_finite_some (c : Q) (r : list npfloat) (rq : list Q) :
  finite_vec r = Some rq ->
  finite_vec (map (np_scale c) r) = Some (scale c rq).
Proof.
  revert rq. induction r as [|f r IH]; intros rq H; cbn [map finite_vec] in *.
  - inversion H. reflexivity.
  - destruct f; try discriminate. cbn [np_scale].
    destruct (finite_vec r) eqn:E; try discriminate.
    inversion H; subst. now rewrite (IH _ eq_refl).
Qed.

Lemma np_mat_scale_finite_some (c : Q) (S : list (list npfloat))
      (P : list (list Q)) :
  finite_mat S = Some P ->
  finite_mat (np_mat_scale c S) = Some (mat_scale c P).
Proof.
  unfold np_mat_scale. revert P.
  induction S as [|r S IH]; intros P H; cbn [map finite_mat] in *.
  - inversion H. reflexivity.
  - destruct (finite_vec r) eqn:Er; try discriminate.
    destruct (finite_mat S) eqn:ES; try discriminate.
    inversion H; subst.
    now rewrite (np_scale_finite_some c r l Er), (IH _ eq_refl).
Qed.

(** The converse of [qp_solution_mat_scale]. *)
Lemma qp_solution_mat_scale_up (n : nat) S (a : list npfloat) (c rhs k : Q)
      (w : list Q) :
  0 < k ->
  qp_solution (mkQP n S a c rhs) w ->
  qp_solution (mkQP n (np_mat_scale k S) a c rhs) w.
Proof.
  intros Hk [Hfeas [P [HP Hmin]]]. cbn [qp_P] in *.
  split; [exact Hfeas|].
  exists (mat_scale k P). cbn [qp_P].
  split; [now apply np_mat_scale_finite_some|].
  intros w' Hw'. specialize (Hmin w' Hw'). rewrite !quad_mat_scale.
  apply Qmult_le_l; assumption.
Qed.

(** ** The solver for identical assets is sound *)

Lemma Qle_bool_false (x y : Q) : Qle_bool x y = false -> y < x.
Proof.
  intros H. destruct (Qlt_le_dec y x) as [Hlt|Hle]; auto.
  apply Qle_bool_iff in Hle. congruence.
Qed.

Lemma twin_quad (p11 p12 p21 p22 x y : Q) :
  p12 == p11 -> p21 == p11 -> p22 == p11 ->
  quad [x; y] [[p11; p12]; [p21; p22]] == p11 * ((x + y) * (x + y)).
Proof.
  intros H12 H21 H22. unfold quad, mat_vec. cbn [map dot].
  rewrite H12, H21, H22. ring.
Qed.

Theorem tie_solver_sound : solver_sound tie_solver.
Proof.
  intros qp w H. unfold tie_solver in H.
  destruct (finite_mat (qp_P qp))
    as [[|[|p11 [|p12 [|? ?]]] [|[|p21 [|p22 [|? ?]]] [|? ?]]]|] eqn:HP;
    destruct (finite_vec (qp_a qp)) as [[|m1 [|m2 [|? ?]]]|] eqn:Ha;
    try discriminate H.
  cbv zeta in H.
  destruct (_ && _) eqn:C in H; try discriminate.
  repeat (apply andb_prop in C; destruct C as [C ?]).
  apply Nat.eqb_eq in C.
  repeat match goal with
         | E : Qeq_bool _ _ = true |- _ => apply Qeq_bool_eq in E
         | E : Qle_bool _ _ = true |- _ => apply Qle_bool_iff in E
         | E : negb _ = true |- _ => apply negb_true_iff, Qle_bool_false in E
         end.
  set (b := qp_rhs qp + qp_c qp) in *.
  assert (Hm : 0 < m1) by assumption.
  assert (Ht : 0 <= b / m1) by (apply Qle_shift_div_l; lra).
  assert (Hopt : forall u, vec_eq u [b / m1; 0] \/ vec_eq u [0; b / m1] ->
                 u = w -> qp_solution qp w).
  { intros u Hu <-.
    assert (Hsum : exists x y, u = [x; y] /\ x + y == b / m1 /\ 0 <= x /\ 0 <= y).
    { destruct Hu as [Hu|Hu];
        inversion Hu as [|x ? u1 ? Hx Hu1]; subst;
        inversion Hu1 as [|y ? u2 ? Hy Hu2]; subst;
        inversion Hu2; subst; exists x, y; repeat split; lra. }
    destruct Hsum as [x [y [-> [Hxy [Hx Hy]]]]].
    split.
    - split; [now rewrite C|].
      split; [repeat constructor; assumption|].
      exists [m1; m2]. split; [exact Ha|]. cbn [dot].
      assert (E : m1 * x + (m2 * y + 0) == m1 * (x + y))
        by (match goal with E : m2 == m1 |- _ => rewrite E end; ring).
      rewrite E, Hxy. unfold b. field. lra.
    - exists [[p11; p12]; [p21; p22]]. split; [exact HP|].
      intros w' [Hl' [Hn' [a' [Ha' He']]]].
      rewrite Ha in Ha'. inversion Ha'; subst a'.
      rewrite C in Hl'.
      destruct w' as [|x' [|y' [|? ?]]]; try discriminate.
      cbn [dot] in He'.
      assert (E' : x' + y' == b / m1).
      { assert (E1 : m1 * (x' + y') == b).
        { match goal with E : m2 == m1 |- _ => rewrite E in He' end.
          unfold b. lra. }
        rewrite <- E1. field. lra. }
      rewrite !twin_quad by assumption.
      rewrite Hxy, E'. lra. }
  destruct (Qle_bool (p11 * b) 3); injection H as Hw.
  - apply (Hopt [b / m1; 0]); [left|exact Hw].
    repeat constructor; reflexivity.
  - apply (Hopt [0; b / m1]); [right|exact Hw].
    repeat constructor; reflexivity.
Qed.

(** ** Tables without a positive mean *)

Lemma infeasible_table (df : DataFrame) (rf : Q) (a : list Q) :
  finite_vec (df_mean df) = Some a ->
  forallb (fun m => Qle_bool m 0) a = true ->
  0 < 1 + rf ->
  forall w, ~ feasible (problem_of df rf) w.
Proof.
  intros Ha Hneg Hrf w. apply (infeasible_nonpositive _ a).
  - exact Ha.
  - unfold nonpositive. apply Forall_forall. intros m Hm.
    rewrite forallb_forall in Hneg. now apply Qle_bool_iff, Hneg.
  - cbn [problem_of qp_rhs qp_c]. lra.
Qed.

(** * Properties of [mean_variance_sharpe_maximization] *)

(** ** Some mean above the rate *)

(** C2 (failing input): the table [two_losers] has two assets, three
    observations and sample means -1/200, both strictly greater than
    rf = -1/100.  The constraint of the max-Sharpe transformation,
    [(mu - rf)^T w = 1], can be met by a long-only [w]; the constraint the
    code builds, [mu^T w - rf = 1], cannot, so no solve can leave a value
    that meets the constraints, and when the solve leaves none the call
    raises ValueError instead of returning a weight vector. *)
Theorem C2_failing_input :
  (2 <= length (columns two_losers))%nat /\ (2 <= nobs two_losers)%nat /\
  wf_df two_losers /\
  (exists mu,
     finite_vec (df_mean two_losers) = Some mu /\
     Forall (fun m => (-1 # 100) < m) mu /\
     exists w, nonneg w /\ excess_return mu (-1 # 100) w == 1) /\
  (forall w, ~ feasible (problem_of two_losers (-1 # 100)) w) /\
  (forall (ecos : solver_t) (h : heap) (returns : addr),
     holds_frame h returns two_losers ->
     ecos (problem_of two_losers (-1 # 100)) = Status None ->
     result_of (mean_variance_sharpe_maximization ecos returns (-1 # 100) h)
     = Raise (ValueError no_solution)) /\
  result_of (mean_variance_sharpe_maximization uncorrelated_solver 0%nat
               (-1 # 100) [ODataFrame two_losers])
  = Raise (ValueError no_solution).
Proof.
  split; [simpl; lia|]. split; [simpl; lia|].
  split; [repeat constructor|].
  split.
  { eexists. split; [vm_compute; reflexivity|].
    split; [repeat constructor; unfold Qlt; simpl; lia|].
    exists [200; 0]. split; [repeat constructor; unfold Qle; simpl; lia|].
    vm_compute. reflexivity. }
  split.
  { eapply infeasible_table.
    - vm_compute. reflexivity.
    - vm_compute. reflexivity.
    - unfold Qlt; simpl; lia. }
  split.
  { intros ecos h returns Hdf Hsol.
    rewrite (program_run ecos h returns two_losers _ Hdf). cbv zeta.
    rewrite cov_accepted by (simpl; lia). now rewrite Hsol. }
  vm_compute. reflexivity.
Qed.

(** ** The one failure of the function's own *)

(** C3 (counterexample): every sample mean of [two_losers] is at most
    rf = 0 and no [w >= 0] satisfies [mu^T w - rf = 1]; yet whatever the
    solve does, an exception the call raises is the solver's own or the
    ValueError of line 46, and with no value left by the solve it is that
    ValueError: there is no InfeasibleProblemError. *)
Lemma C3_counterexample :
  (exists mu,
     finite_vec (df_mean two_losers) = Some mu /\ Forall (fun m => m <= 0) mu) /\
  (forall w, ~ feasible (problem_of two_losers 0) w) /\
  (forall (ecos : solver_t) (h : heap) (returns : addr) (e : exn),
     holds_frame h returns two_losers ->
     result_of (mean_variance_sharpe_maximization ecos returns 0 h) = Raise e ->
     e = ValueError no_solution \/ ecos (problem_of two_losers 0) = Raised e) /\
  result_of (mean_variance_sharpe_maximization uncorrelated_solver 0%nat 0
               [ODataFrame two_losers])
  = Raise (ValueError no_solution) /\
  exn_class (ValueError no_solution) <> "InfeasibleProblemError"%string.
Proof.
  split.
  { eexists. split; [vm_compute; reflexivity|].
    repeat constructor; unfold Qle; simpl; lia. }
  split.
  { eapply infeasible_table.
    - vm_compute. reflexivity.
    - vm_compute. reflexivity.
    - unfold Qlt; simpl; lia. }
  split.
  { intros ecos h returns e Hdf.
    rewrite (program_run ecos h returns two_losers _ Hdf). cbv zeta.
    rewrite cov_accepted by (simpl; lia).
    destruct (ecos (problem_of two_losers 0)) as [e'|[w|]]; cbn;
      intros H; inversion H; auto. }
  split; [vm_compute; reflexivity|discriminate].
Qed.

(** C3 (amended): the function has a single failure of its own after the
    problem is built.  When [cp.quad_form] has accepted the covariance
    matrix and the solve leaves no value in [w], as on an infeasible
    program, the call raises ValueError("Optimization failed: no solution
    found.") and returns no weight vector.  Any exception of the call is
    that ValueError, the one [cp.quad_form] raised, or the one the solve
    raised; weights are returned only from a value the solve left. *)
Theorem C3_single_failure_path (ecos : solver_t) (h : heap) (returns : addr)
    (df : DataFrame) (rf : Q) :
  holds_frame h returns df ->
  (quad_form_check (length (df_mean df)) (df_cov df) = None ->
   ecos (problem_of df rf) = Status None ->
   result_of (mean_variance_sharpe_maximization ecos returns rf h)
   = Raise (ValueError no_solution)) /\
  (forall e,
     result_of (mean_variance_sharpe_maximization ecos returns rf h) = Raise e ->
     quad_form_check (length (df_mean df)) (df_cov df) = Some e \/
     ecos (problem_of df rf) = Raised e \/
     (ecos (problem_of df rf) = Status None /\ e = ValueError no_solution)) /\
  (forall s,
     result_of (mean_variance_sharpe_maximization ecos returns rf h) = Ok s ->
     quad_form_check (length (df_mean df)) (df_cov df) = None /\
     exists w, ecos (problem_of df rf) = Status (Some w)).
Proof.
  intros Hdf. rewrite (program_run ecos h returns df rf Hdf). cbv zeta.
  destruct (quad_form_check _ _) as [e0|] eqn:Hq.
  - split; [discriminate|]. split.
    + intros e H. inversion H. now left.
    + discriminate.
  - destruct (ecos (problem_of df rf)) as [e'|[w|]]; cbn.
    + split; [discriminate|]. split; [|discriminate].
      intros e H. inversion H. right. now left.
    + split; [discriminate|]. split; [discriminate|].
      intros s _. split; [reflexivity|]. now exists w.
    + split; [reflexivity|]. split; [|discriminate].
      intros e H. inversion H. right. right. now split.
Qed.

Lemma C3_single_failure_path_witness :
  result_of (mean_variance_sharpe_maximization uncorrelated_solver 0%nat 0
               [ODataFrame two_losers])
  = Raise (ValueError no_solution).
Proof.
  apply (proj1 (C3_single_failure_path uncorrelated_solver
                  [ODataFrame two_losers] 0%nat two_losers 0 eq_refl)).
  - vm_compute. reflexivity.
  - vm_compute. reflexivity.
Defined.

(** ** Fewer than two observations *)

(** C5 (counterexample): for the two assets of [one_period], observed
    once, the call raises the ValueError of [cp.quad_form] whatever the
    solver and the rate: no InsufficientDataError. *)
Lemma C5_counterexample :
  (nobs one_period < 2)%nat /\
  (forall (ecos : solver_t) (h : heap) (returns : addr) (rf : Q),
     holds_frame h returns one_period ->
     result_of (mean_variance_sharpe_maximization ecos returns rf h)
     = Raise not_hermitian) /\
  exn_class not_hermitian = "ValueError"%string /\
  exn_class not_hermitian <> "InsufficientDataError"%string.
Proof.
  split; [simpl; lia|]. split.
  { intros ecos h returns rf Hdf.
    rewrite (program_run ecos h returns one_period rf Hdf). cbv zeta.
    rewrite cov_rejected; [reflexivity| |simpl; lia|simpl; lia].
    repeat constructor. }
  split; [reflexivity|discriminate].
Qed.

(** C5 (amended): the function has no check of the number of
    observations and no InsufficientDataError.  For a table with fewer
    than two observations every entry of the covariance matrix is NaN:
    with two assets or more [cp.quad_form] rejects it, and the call
    raises ValueError("Quadratic form matrices must be
    symmetric/Hermitian.") before any solve, whatever the solver; with a
    single asset the 1 x 1 matrix passes and the outcome is that of the
    solve, which leaves no weights when the solver is sound. *)
Theorem C5_too_few_observations (ecos : solver_t) (h : heap) (returns : addr)
    (df : DataFrame) (rf : Q) :
  holds_frame h returns df -> wf_df df -> (nobs df < 2)%nat ->
  ((2 <= length (columns df))%nat ->
   mean_variance_sharpe_maximization ecos returns rf h
   = (Raise not_hermitian, h ++ [OVariable (length (columns df)) None])) /\
  (length (columns df) = 1%nat -> solver_sound ecos ->
   forall s,
     result_of (mean_variance_sharpe_maximization ecos returns rf h) <> Ok s).
Proof.
  intros Hdf Hwf HT.
  rewrite (program_run ecos h returns df rf Hdf). cbv zeta. split.
  - intros Hn. rewrite cov_rejected by assumption.
    now rewrite df_mean_length.
  - intros Hn Hsound s. rewrite single_asset_accepted by assumption.
    destruct (ecos (problem_of df rf)) as [e|[w|]] eqn:Hsol; cbn;
      try discriminate.
    exfalso. destruct (Hsound _ _ Hsol) as [_ [P [HP _]]].
    cbn [problem_of qp_P] in HP.
    rewrite (df_cov_not_finite df) in HP by (auto; lia). discriminate.
Qed.

Lemma C5_too_few_observations_witness :
  mean_variance_sharpe_maximization uncorrelated_solver 0%nat 0
    [ODataFrame one_period]
  = (Raise not_hermitian, [ODataFrame one_period; OVariable 2 None]).
Proof.
  apply (proj1 (C5_too_few_observations uncorrelated_solver
                  [ODataFrame one_period] 0%nat one_period 0 eq_refl
                  ltac:(repeat constructor) ltac:(simpl; lia))).
  simpl; lia.
Defined.

(** ** Dividing by the sum of the raw value *)

Lemma np_divide_length (w : list Q) (s : Q) :
  length (np_divide w s) = length w.
Proof. unfold np_divide. apply length_map. Qed.

(** C6 (counterexample): at [two_assets] with rf = -1 the constraint is
    [mu^T w = 0].  Whatever value the solve leaves in [w], the call
    returns a Series and raises nothing: for a raw value summing to
    1e-12 it returns a weight below 0 and a weight above 1 (-0.74 and
    1.74), and for the exact solution [0; 0] it returns two NaN. *)
Lemma C6_counterexample :
  np_sum tiny_value == 1 # 1000000000000 /\
  (forall (ecos : solver_t) (h : heap) (returns : addr),
     holds_frame h returns two_assets ->
     ecos (problem_of two_assets (-1)) = Status (Some tiny_value) ->
     exists s x y,
       result_of (mean_variance_sharpe_maximization ecos returns (-1) h) = Ok s /\
       values s = [Fin x; Fin y] /\ x < 0 /\ 1 < y) /\
  (forall (ecos : solver_t) (h : heap) (returns : addr),
     holds_frame h returns two_assets ->
     ecos (problem_of two_assets (-1)) = Status (Some [0; 0]) ->
     result_of (mean_variance_sharpe_maximization ecos returns (-1) h)
     = Ok (mkSeries [NaN; NaN] ["A"%string; "B"%string])).
Proof.
  split; [vm_compute; reflexivity|]. split.
  - intros ecos h returns Hdf Hsol.
    rewrite (program_run ecos h returns two_assets _ Hdf). cbv zeta.
    rewrite cov_accepted by (simpl; lia). rewrite Hsol.
    eexists. eexists. eexists. split; [reflexivity|].
    split; [vm_compute; reflexivity|].
    split; vm_compute; reflexivity.
  - intros ecos h returns Hdf Hsol.
    rewrite (program_run ecos h returns two_assets _ Hdf). cbv zeta.
    rewrite cov_accepted by (simpl; lia). rewrite Hsol. reflexivity.
Qed.

(** C6 (amended): the division of line 47 is unguarded and no
    NormalizationError exists.  Whenever [cp.quad_form] has accepted the
    covariance matrix and the solve leaves a value [w], whatever its sum,
    the call raises nothing and returns the Series of the quotients over
    the columns of the table, one per entry of [w]; when the sum is
    exactly zero none of them is finite. *)
Theorem C6_division_unguarded (ecos : solver_t) (h : heap) (returns : addr)
    (df : DataFrame) (rf : Q) (w : list Q) :
  holds_frame h returns df ->
  quad_form_check (length (df_mean df)) (df_cov df) = None ->
  ecos (problem_of df rf) = Status (Some w) ->
  exists s,
    result_of (mean_variance_sharpe_maximization ecos returns rf h) = Ok s /\
    index s = columns df /\
    length (values s) = length w /\
    (np_sum w == 0 -> Forall (fun f => is_finite f = false) (values s)).
Proof.
  intros Hdf Hq Hsol.
  rewrite (program_run ecos h returns df rf Hdf). cbv zeta.
  rewrite Hq, Hsol. eexists. split; [reflexivity|].
  cbn [index values]. split; [reflexivity|].
  split; [apply np_divide_length|].
  intros Hs. rewrite (np_divide_zero w _ Hs). apply zero_division_not_finite.
Qed.

Lemma C6_division_unguarded_witness :
  exists s,
    result_of (mean_variance_sharpe_maximization uncorrelated_solver 0%nat 0
                 [ODataFrame two_assets]) = Ok s /\
    index s = columns two_assets /\
    length (values s) = 2%nat.
Proof.
  assert (Hsol : exists w,
            uncorrelated_solver (problem_of two_assets 0) = Status (Some w) /\
            length w = 2%nat)
    by (eexists; split; vm_compute; reflexivity).
  destruct Hsol as [w [Hsol Hlen]].
  destruct (C6_division_unguarded uncorrelated_solver [ODataFrame two_assets]
              0%nat two_assets 0 w eq_refl
              ltac:(vm_compute; reflexivity) Hsol)
    as [s [H1 [H2 [H3 _]]]].
  exists s. split; [exact H1|]. split; [exact H2|]. now rewrite H3.
Defined.

(** ** Scaling the covariance matrix *)




(** ** A single asset *)

(** C8 (counterexample): the single asset of [one_loser] has mean -1/50.
    With rf = 0 the mean is at most rf and the call raises the
    ValueError of line 46, not an InfeasibleProblemError.  With
    rf = -1/10 the mean is above rf and the call raises the same
    ValueError instead of returning the weight 1.  The asset of
    [one_asset] has mean 2, at most rf = 3, and the call returns the
    weight 1. *)
Lemma C8_counterexample :
  (exists m, df_mean one_loser = [Fin m] /\ m == -1 # 50) /\
  (forall w, ~ feasible (problem_of one_loser 0) w) /\
  (forall (ecos : solver_t) (h : heap) (returns : addr),
     holds_frame h returns one_loser ->
     ecos (problem_of one_loser 0) = Status None ->
     result_of (mean_variance_sharpe_maximization ecos returns 0 h)
     = Raise (ValueError no_solution)) /\
  exn_class (ValueError no_solution) <> "InfeasibleProblemError"%string /\
  result_of (mean_variance_sharpe_maximization uncorrelated_solver 0%nat 0
               [ODataFrame one_loser])
  = Raise (ValueError no_solution) /\
  result_of (mean_variance_sharpe_maximization uncorrelated_solver 0%nat
               (-1 # 10) [ODataFrame one_loser])
  = Raise (ValueError no_solution) /\
  (exists m, df_mean one_asset = [Fin m] /\ m == 2) /\
  exists q,
    result_of (mean_variance_sharpe_maximization uncorrelated_solver 0%nat 3
                 [ODataFrame one_asset])
    = Ok (mkSeries [Fin q] ["A"%string]) /\ q == 1.
Proof.
  split; [eexists; split; vm_compute; reflexivity|].
  split.
  { eapply infeasible_table.
    - vm_compute. reflexivity.
    - vm_compute. reflexivity.
    - unfold Qlt; simpl; lia. }
  split.
  { intros ecos h returns Hdf Hsol.
    rewrite (program_run ecos h returns one_loser _ Hdf). cbv zeta.
    rewrite cov_accepted by (simpl; lia). now rewrite Hsol. }
  split; [discriminate|].
  split; [vm_compute; reflexivity|].
  split; [vm_compute; reflexivity|].
  split; [eexists; split; vm_compute; reflexivity|].
  eexists. split; vm_compute; reflexivity.
Qed.

(** C8 (amended): for a table with exactly one asset and at least two
    observations, whenever the solve leaves a raw value [x] other than
    zero the call returns the weight 1 for that asset ([x / x]), and
    whenever the solve leaves no value it raises
    ValueError("Optimization failed: no solution found."). *)
Theorem C8_single_asset (ecos : solver_t) (h : heap) (returns : addr)
    (df : DataFrame) (rf : Q) :
  holds_frame h returns df ->
  length (columns df) = 1%nat -> (2 <= nobs df)%nat ->
  (forall x, ecos (problem_of df rf) = Status (Some [x]) -> ~ x == 0 ->
     exists q,
       result_of (mean_variance_sharpe_maximization ecos returns rf h)
       = Ok (mkSeries [Fin q] (columns df)) /\ q == 1) /\
  (ecos (problem_of df rf) = Status None ->
   result_of (mean_variance_sharpe_maximization ecos returns rf h)
   = Raise (ValueError no_solution)).
Proof.
  intros Hdf Hn HT.
  rewrite (program_run ecos h returns df rf Hdf). cbv zeta.
  rewrite cov_accepted by (auto; lia). split.
  - intros x Hsol Hx. rewrite Hsol. cbn [np_divide np_sum map].
    assert (Hs : ~ x + 0 == 0) by lra.
    rewrite np_true_divide_fin by assumption.
    eexists. split; [reflexivity|]. field. lra.
  - intros Hsol. now rewrite Hsol.
Qed.

Lemma C8_single_asset_witness :
  exists q,
    result_of (mean_variance_sharpe_maximization uncorrelated_solver 0%nat 0
                 [ODataFrame one_asset])
    = Ok (mkSeries [Fin q] (columns one_asset)) /\ q == 1.
Proof.
  assert (Hsol : exists x,
            uncorrelated_solver (problem_of one_asset 0) = Status (Some [x]) /\
            Qeq_bool x 0 = false)
    by (eexists; split; vm_compute; reflexivity).
  destruct Hsol as [x [Hsol Hx]].
  apply (proj1 (C8_single_asset uncorrelated_solver [ODataFrame one_asset]
                  0%nat one_asset 0 eq_refl eq_refl ltac:(simpl; lia)) x Hsol).
  intros E. apply Qeq_bool_true in E. congruence.
Defined.

(** ** Changing the rate *)




(** ** When the constraints can be met *)

Lemma dot_nonneg_nonneg (a w : list Q) :
  Forall (fun x => 0 <= x) a -> nonneg w -> 0 <= dot a w.
Proof.
  intros Ha. revert w. induction Ha as [|x a Hx Ha IH]; intros [|y w] Hw;
    simpl; try lra.
  inversion Hw; subst. specialize (IH w H2).
  assert (0 <= x * y) by (apply Qmult_le_0_compat; assumption). lra.
Qed.

Lemma Forall_or_Exists_pos (a : list Q) :
  Forall (fun x => x <= 0) a \/ Exists (fun x => 0 < x) a.
Proof.
  induction a as [|x a [IH|IH]].
  - left. constructor.
  - destruct (Qlt_le_dec 0 x) as [H|H].
    + right. now constructor.
    + left. now constructor.
  - right. now constructor 2.
Qed.

Lemma Forall_or_Exists_neg (a : list Q) :
  Forall (fun x => 0 <= x) a \/ Exists (fun x => x < 0) a.
Proof.
  induction a as [|x a [IH|IH]].
  - left. constructor.
  - destruct (Qlt_le_dec x 0) as [H|H].
    + right. now constructor.
    + left. now constructor.
  - right. now constructor 2.
Qed.

Lemma Exists_nth_error {A} (P : A -> Prop) (l : list A) :
  Exists P l -> exists i x, nth_error l i = Some x /\ P x.
Proof.
  induction 1 as [x l H|x l H [i [y [Hi Hy]]]].
  - exists 0%nat, x. auto.
  - exists (S i), y. auto.
Qed.

(** Holding a single asset whose mean has the sign of [1 + rf]. *)
Lemma feasible_one_asset (n : nat) P (mu : list npfloat) (a : list Q)
      (rf : Q) (i : nat) (m : Q) :
  finite_vec mu = Some a -> length a = n ->
  nth_error a i = Some m -> ~ m == 0 -> 0 <= (1 + rf) / m ->
  feasible (mkQP n P mu rf 1) (single n i ((1 + rf) / m)).
Proof.
  intros Ha Hn Hi Hm Hv. unfold feasible. cbn [qp_n qp_a qp_c qp_rhs].
  split; [apply single_length|].
  split; [now apply single_nonneg|].
  exists a. split; auto. subst n.
  rewrite (dot_single a i m) by assumption.
  field. assumption.
Qed.

(** X2: the constraints [mu^T w - rf = 1], [w >= 0] built by the function
    can be met exactly when [1 + rf = 0], or [1 + rf > 0] and some asset
    has a positive sample mean, or [1 + rf < 0] and some asset has a
    negative sample mean. *)
Theorem X2_feasibility_by_signs (df : DataFrame) (rf : Q) (a : list Q) :
  finite_vec (df_mean df) = Some a ->
  ((exists w, feasible (problem_of df rf) w) <->
   (1 + rf == 0 \/
    (0 < 1 + rf /\ Exists (fun m => 0 < m) a) \/
    (1 + rf < 0 /\ Exists (fun m => m < 0) a))).
Proof.
  intros Ha.
  assert (Hlen : length a = length (df_mean df))
    by (now apply finite_vec_length).
  split.
  - intros [w [_ [Hw [a' [Ha' Heq]]]]].
    cbn [problem_of qp_a qp_c qp_rhs] in *.
    rewrite Ha in Ha'. inversion Ha'; subst a'.
    destruct (Q_dec (1 + rf) 0) as [[Hneg|Hpos]|Hz]; auto.
    + right. right. split; auto.
      destruct (Forall_or_Exists_neg a) as [Hall|Hex]; auto.
      pose proof (dot_nonneg_nonneg a w Hall Hw). lra.
    + right. left. split; auto.
      destruct (Forall_or_Exists_pos a) as [Hall|Hex]; auto.
      pose proof (dot_nonpos_nonneg a w Hall Hw). lra.
  - intros [Hz|[[Hpos Hex]|[Hneg Hex]]].
    + exists (repeat 0 (length (df_mean df))).
      unfold problem_of, feasible. cbn [qp_n qp_a qp_c qp_rhs].
      split; [apply repeat_length|].
      split; [apply nonneg_repeat_zero|].
      exists a. split; auto. rewrite dot_repeat_zero. lra.
    + destruct (Exists_nth_error _ _ Hex) as [i [m [Hi Hm]]].
      eexists. unfold problem_of.
      apply (feasible_one_asset _ _ _ a rf i m); auto; try lra.
      apply Qle_shift_div_l; lra.
    + destruct (Exists_nth_error _ _ Hex) as [i [m [Hi Hm]]].
      eexists. unfold problem_of.
      apply (feasible_one_asset _ _ _ a rf i m); auto; try lra.
      assert (E : (1 + rf) / m == (- (1 + rf)) / (- m)) by (field; lra).
      rewrite E. apply Qle_shift_div_l; lra.
Qed.

Lemma X2_feasibility_by_signs_witness :
  exists a,
    finite_vec (df_mean two_losers) = Some a /\
    ((exists w, feasible (problem_of two_losers (-3)) w) <->
     (1 + -3 == 0 \/
      (0 < 1 + -3 /\ Exists (fun m => 0 < m) a) \/
      (1 + -3 < 0 /\ Exists (fun m => m < 0) a))).
Proof.
  eexists. split.
  - vm_compute. reflexivity.
  - apply (X2_feasibility_by_signs two_losers (-3)).
    vm_compute. reflexivity.
Defined.

(** ** What a portfolio meeting the constraint earns *)

(** A feasible point of a program with [rhs + c <> 0] has a positive sum. *)
Lemma feasible_sum_pos_nonzero (qp : QP) (w : list Q) :
  feasible qp w -> ~ qp_rhs qp + qp_c qp == 0 -> 0 < np_sum w.
Proof.
  intros [_ [Hw [a [_ Heq]]]] Hb.
  pose proof (np_sum_nonneg w Hw) as Hs.
  destruct (Qeq_dec (np_sum w) 0) as [E|E]; [|lra].
  pose proof (nonneg_sum_zero_dot a w Hw E). exfalso. apply Hb. lra.
Qed.

(** X3: every long-only [w] that meets the constraint the function
    builds, [mu^T w - rf = 1] with [1 + rf <> 0], has a positive sum, and
    the fully invested portfolio [w / sum(w)] has the sample mean return
    [(1 + rf) / sum(w)], of the sign of [1 + rf]: for a rate below -1
    every portfolio the constraint admits has a negative expected
    return. *)
Theorem X3_expected_return_sign (df : DataFrame) (rf : Q) (mu w : list Q) :
  finite_vec (df_mean df) = Some mu ->
  feasible (problem_of df rf) w ->
  ~ 1 + rf == 0 ->
  0 < np_sum w /\
  nonneg (scale (1 / np_sum w) w) /\
  np_sum (scale (1 / np_sum w) w) == 1 /\
  dot mu (scale (1 / np_sum w) w) == (1 + rf) / np_sum w /\
  (0 < 1 + rf -> 0 < dot mu (scale (1 / np_sum w) w)) /\
  (1 + rf < 0 -> dot mu (scale (1 / np_sum w) w) < 0).
Proof.
  intros Hmu Hfeas Hrf.
  assert (Hpos : 0 < np_sum w).
  { apply (feasible_sum_pos_nonzero _ _ Hfeas).
    cbn [problem_of qp_rhs qp_c]. exact Hrf. }
  destruct Hfeas as [Hlen [Hnn [mu' [Hmu' Heq]]]].
  cbn [problem_of qp_n qp_a qp_c qp_rhs] in *.
  rewrite Hmu in Hmu'. inversion Hmu'; subst mu'.
  assert (Hinv : 0 < 1 / np_sum w) by (apply Qlt_shift_div_l; lra).
  assert (Hdot : dot mu (scale (1 / np_sum w) w) == (1 + rf) / np_sum w).
  { rewrite dot_scale_r. assert (E : dot mu w == 1 + rf) by lra.
    rewrite E. field. lra. }
  split; [exact Hpos|].
  split; [apply nonneg_scale; [lra|exact Hnn]|].
  split; [rewrite np_sum_scale; field; lra|].
  split; [exact Hdot|].
  split; intros Hsign; rewrite Hdot.
  - apply Qlt_shift_div_l; lra.
  - assert (E : (1 + rf) / np_sum w == - ((- (1 + rf)) / np_sum w))
      by (field; lra).
    rewrite E.
    assert (0 < (- (1 + rf)) / np_sum w) by (apply Qlt_shift_div_l; lra).
    lra.
Qed.

Lemma X3_expected_return_sign_witness :
  exists mu,
    finite_vec (df_mean two_losers) = Some mu /\
    dot mu (scale (1 / np_sum [400; 0]) [400; 0]) < 0.
Proof.
  assert (Hmu : exists mu,
            finite_vec (df_mean two_losers) = Some mu /\
            vec_eqb mu [-1 # 200; -1 # 200] = true)
    by (eexists; split; vm_compute; reflexivity).
  destruct Hmu as [mu [Hmu Heq]].
  exists mu. split; [exact Hmu|].
  refine (proj2 (proj2 (proj2 (proj2 (proj2
            (X3_expected_return_sign two_losers (-3) mu [400; 0] Hmu _ _)))))
            _).
  - split; [reflexivity|].
    split; [repeat constructor; unfold Qle; simpl; lia|].
    exists mu. split; [exact Hmu|].
    cbn [problem_of qp_c qp_rhs].
    rewrite (dot_vec_eq_l mu _ [400; 0] (vec_eqb_sound _ _ Heq)).
    vm_compute. reflexivity.
  - unfold Qeq; simpl; lia.
  - unfold Qlt; simpl; lia.
Defined.

(** ** The minimisers and the mean-to-risk ratio *)

(** A long-only vector of positive mean, rescaled to meet the constraint. *)
Lemma rescaled_feasible (df : DataFrame) (rf : Q) (mu x : list Q) :
  finite_vec (df_mean df) = Some mu ->
  length x = length (columns df) -> nonneg x ->
  0 < 1 + rf -> 0 < dot mu x ->
  feasible (problem_of df rf) (scale ((1 + rf) / dot mu x) x).
Proof.
  intros Hmu Hx Hxn Hrf Hd.
  assert (Hk : 0 <= (1 + rf) / dot mu x) by (apply Qle_shift_div_l; lra).
  unfold feasible, problem_of. cbn [qp_n qp_a qp_c qp_rhs].
  split; [rewrite scale_length, df_mean_length; exact Hx|].
  split; [now apply nonneg_scale|].
  exists mu. split; [exact Hmu|].
  rewrite dot_scale_r.
  assert (E : (1 + rf) / dot mu x * dot mu x == 1 + rf) by (field; lra).
  rewrite E. ring.
Qed.

(** X4: for [1 + rf > 0], every minimiser [w] of the program the function
    builds, normalised to the fully invested portfolio [ws = w / sum(w)],
    has the largest ratio of squared sample mean return to sample
    variance among the long-only portfolios of positive mean:
    [mean(x)^2 var(ws) <= mean(ws)^2 var(x)].  The rate does not enter
    the ratio: it is the squared Sharpe ratio for rf = 0 only. *)
Theorem X4_maximal_mean_to_risk (df : DataFrame) (rf : Q)
    (mu : list Q) (Sigma : list (list Q)) (w : list Q) :
  finite_vec (df_mean df) = Some mu ->
  finite_mat (df_cov df) = Some Sigma ->
  0 < 1 + rf ->
  qp_solution (problem_of df rf) w ->
  0 < np_sum w /\
  0 < dot mu (scale (1 / np_sum w) w) /\
  forall x, length x = length (columns df) -> nonneg x -> 0 < dot mu x ->
    (dot mu x * dot mu x) * quad (scale (1 / np_sum w) w) Sigma
    <= (dot mu (scale (1 / np_sum w) w) * dot mu (scale (1 / np_sum w) w))
       * quad x Sigma.
Proof.
  intros Hmu HSigma Hrf [Hfeas [P [HP Hmin]]].
  cbn [problem_of qp_P] in HP. rewrite HSigma in HP.
  inversion HP; subst P; clear HP.
  pose proof (feasible_sum_pos _ _ Hfeas) as Hpos.
  cbn [problem_of qp_rhs qp_c] in Hpos. specialize (Hpos ltac:(lra)).
  pose proof Hfeas as [Hlen [Hnn [mu' [Hmu' Heq]]]].
  cbn [problem_of qp_n qp_a qp_c qp_rhs] in *.
  rewrite Hmu in Hmu'. inversion Hmu'; subst mu'; clear Hmu'.
  set (S := np_sum w) in *.
  assert (HS : ~ S == 0) by lra.
  assert (Hdot : dot mu (scale (1 / S) w) == (1 + rf) / S).
  { rewrite dot_scale_r. assert (E : dot mu w == 1 + rf) by lra.
    rewrite E. field. lra. }
  split; [exact Hpos|].
  split; [rewrite Hdot; apply Qlt_shift_div_l; lra|].
  intros x Hx Hxn Hd.
  set (d := dot mu x) in *.
  assert (Hk : 0 <= (1 + rf) / d) by (apply Qle_shift_div_l; lra).
  assert (Hfx : feasible (problem_of df rf) (scale ((1 + rf) / d) x)).
  { apply (rescaled_feasible df rf mu x); auto. }
  specialize (Hmin _ Hfx). rewrite quad_scale in Hmin.
  rewrite quad_scale, Hdot.
  set (qw := quad w Sigma) in *. set (qx := quad x Sigma) in *.
  assert (E : (1 + rf) / S * ((1 + rf) / S) * qx
              == d * d * (1 / S * (1 / S))
                 * ((1 + rf) / d * ((1 + rf) / d) * qx)) by (field; lra).
  rewrite E.
  assert (E2 : d * d * (1 / S * (1 / S) * qw)
               == d * d * (1 / S * (1 / S)) * qw) by ring.
  rewrite E2.
  assert (H0 : 0 < d * d * (1 / S * (1 / S))).
  { assert (0 < 1 / S) by (apply Qlt_shift_div_l; lra).
    apply Qmult_lt_0_compat; apply Qmult_lt_0_compat; assumption. }
  apply Qmult_le_l; assumption.
Qed.

Lemma X4_maximal_mean_to_risk_witness :
  exists mu Sigma w,
    finite_vec (df_mean two_assets) = Some mu /\
    finite_mat (df_cov two_assets) = Some Sigma /\
    uncorrelated_solver (problem_of two_assets 0) = Status (Some w) /\
    (dot mu [1; 1] * dot mu [1; 1]) * quad (scale (1 / np_sum w) w) Sigma
    <= (dot mu (scale (1 / np_sum w) w) * dot mu (scale (1 / np_sum w) w))
       * quad [1; 1] Sigma.
Proof.
  assert (Hmu : exists mu,
            finite_vec (df_mean two_assets) = Some mu /\
            vec_eqb mu [2; 1] = true)
    by (eexists; split; vm_compute; reflexivity).
  destruct Hmu as [mu [Hmu Heq]].
  assert (HS : exists Sigma, finite_mat (df_cov two_assets) = Some Sigma)
    by (eexists; vm_compute; reflexivity).
  destruct HS as [Sigma HS].
  assert (Hsol : exists w,
            uncorrelated_solver (problem_of two_assets 0) = Status (Some w))
    by (eexists; vm_compute; reflexivity).
  destruct Hsol as [w Hsol].
  exists mu, Sigma, w.
  split; [exact Hmu|]. split; [exact HS|]. split; [exact Hsol|].
  refine (proj2 (proj2 (X4_maximal_mean_to_risk two_assets 0 mu Sigma w
                          Hmu HS _ (uncorrelated_solver_sound _ _ Hsol)))
            [1; 1] eq_refl _ _).
  - unfold Qlt; simpl; lia.
  - repeat constructor; unfold Qle; simpl; lia.
  - rewrite (dot_vec_eq_l mu _ [1; 1] (vec_eqb_sound _ _ Heq)).
    unfold Qlt; simpl; lia.
Defined.

(** * Properties of [compute_returns] *)

(** ** Rows selected by [dropna] *)

Lemma select_and_mask_l (col : list npfloat) (m : list bool) :
  Forall (fun f => isna f = false) (select (and_mask (map notna col) m) col).
Proof.
  revert m. induction col as [|f col IH]; intros [|b m]; simpl; try constructor.
  unfold notna at 1. destruct (isna f) eqn:E; simpl.
  - apply IH.
  - destruct b; [constructor; auto|]; apply IH.
Qed.

Lemma select_and_mask_sub {A} (P : A -> Prop) (a m : list bool) (l : list A) :
  Forall P (select m l) -> Forall P (select (and_mask a m) l).
Proof.
  revert a l. induction m as [|b m IH]; intros [|x a] [|y l] H; simpl in *;
    try constructor.
  destruct b; simpl in *.
  - inversion H; subst. destruct x; simpl; [constructor|]; auto.
  - rewrite andb_false_r. auto.
Qed.

Lemma row_mask_no_missing (T : nat) (cols : list (list npfloat)) (col : list npfloat) :
  In col cols ->
  Forall (fun f => isna f = false) (select (row_mask T cols) col).
Proof.
  induction cols as [|c cols IH]; intros Hin; [contradiction|].
  cbn [row_mask fold_right]. fold (row_mask T cols).
  destruct Hin as [->|Hin].
  - apply select_and_mask_l.
  - apply select_and_mask_sub. now apply IH.
Qed.

Lemma dropna_no_missing (fr : Frame) : no_missing (dropna fr).
Proof.
  unfold no_missing, dropna. cbn [fr_series].
  apply Forall_forall. intros c Hc.
  apply in_map_iff in Hc. destruct Hc as [c0 [<- Hc0]]. cbn [snd].
  apply row_mask_no_missing. now apply in_map.
Qed.

(** X6: whatever the prices and the frequency, a table returned by
    [compute_returns] holds no missing value. *)
Theorem X6_returns_have_no_missing_value
    (resample : Frame -> outcome Frame) (prices : Frame) (freq : string)
    (r : Frame) :
  compute_returns resample prices freq = Ok r -> no_missing r.
Proof.
  unfold compute_returns. intros H.
  destruct (String.eqb freq "daily").
  - inversion H. apply dropna_no_missing.
  - destruct (String.eqb freq "monthly"); [|discriminate].
    destruct (resample prices); inversion H. apply dropna_no_missing.
Qed.

Lemma X6_returns_have_no_missing_value_witness :
  no_missing
    (dropna (pct_change (mkFrame [1; 2; 3]%Z
                           [("A"%string, [Fin 1; NaN; Fin 2])]))).
Proof.
  apply (X6_returns_have_no_missing_value (fun fr => Ok fr)
           (mkFrame [1; 2; 3]%Z [("A"%string, [Fin 1; NaN; Fin 2])])
           "daily").
  reflexivity.
Defined.

(** ** Prices without gaps *)

Lemma pct_pairs_clean (prev : Q) (rest : list Q) :
  nonzero (prev :: rest) ->
  map (fun q => np_sub q 1)
      (np_div_cols (map Fin rest) (shift_from (Fin prev) (map Fin rest)))
  = map Fin (simple_returns prev rest).
Proof.
  revert prev. induction rest as [|cur rest IH]; intros prev H; simpl; auto.
  inversion H as [|? ? Hprev Hrest]; subst.
  cbn [np_div]. rewrite np_true_divide_fin by assumption. cbn [np_sub].
  f_equal. now apply IH.
Qed.

Lemma pct_change_col_clean (pq : list Q) :
  nonzero pq ->
  pct_change_col (map Fin pq)
  = match pq with
    | [] => []
    | _ :: _ => NaN :: map Fin (column_returns pq)
    end.
Proof.
  intros H. destruct pq as [|p0 rest]; [reflexivity|].
  unfold pct_change_col, shift. cbn [map shift_from np_div_cols np_div np_sub].
  f_equal. cbn [column_returns]. now apply pct_pairs_clean.
Qed.

Lemma simple_returns_length (prev : Q) (rest : list Q) :
  length (simple_returns prev rest) = length rest.
Proof.
  revert prev. induction rest as [|cur rest IH]; intros prev; simpl; auto.
Qed.

Lemma column_returns_length (col : list Q) :
  length (column_returns col) = pred (length col).
Proof.
  destruct col as [|p0 rest]; simpl; auto. apply simple_returns_length.
Qed.

Lemma and_mask_finite (rs : list Q) (k : nat) :
  length rs = k ->
  and_mask (map notna (map Fin rs)) (repeat true k) = repeat true k.
Proof.
  revert k. induction rs as [|r rs IH]; intros [|k] H; simpl in *;
    try discriminate; auto.
  f_equal. apply IH. lia.
Qed.

Lemma select_all {A} (l : list A) (k : nat) :
  length l = k -> select (repeat true k) l = l.
Proof.
  revert k. induction l as [|x l IH]; intros [|k] H; simpl in *;
    try discriminate; auto.
  f_equal. apply IH. lia.
Qed.

(** The mask of a table whose columns have their only gap in the first
    row. *)
Lemma row_mask_first_nan (T : nat) (cols : list (list Q)) :
  cols <> [] ->
  Forall (fun col => length col = T /\ nonzero col) cols ->
  row_mask T (map (fun col => pct_change_col (map Fin col)) cols)
  = first_nan_mask T.
Proof.
  intros Hne Hall.
  assert (Hgen : row_mask T (map (fun col => pct_change_col (map Fin col)) cols)
                 = match cols with
                   | [] => repeat true T
                   | _ :: _ => first_nan_mask T
                   end).
  { clear Hne. induction Hall as [|col cols [Hlen Hnz] Hall IH]; [reflexivity|].
    cbn [map row_mask fold_right].
    fold (row_mask T (map (fun col => pct_change_col (map Fin col)) cols)).
    rewrite IH, (pct_change_col_clean col Hnz).
    destruct col as [|p0 rest]; cbn [length] in Hlen; subst T.
    - destruct cols; reflexivity.
    - assert (Hk : length (column_returns (p0 :: rest)) = length rest)
        by (rewrite column_returns_length; reflexivity).
      destruct cols; cbn [first_nan_mask repeat map and_mask notna isna negb andb];
        now rewrite (and_mask_finite _ _ Hk). }
  rewrite Hgen. destruct cols; [contradiction|reflexivity].
Qed.

Lemma select_first_nan_index {A} (idx : list A) :
  select (first_nan_mask (length idx)) idx = tl idx.
Proof.
  destruct idx as [|i idx]; [reflexivity|].
  cbn [length first_nan_mask select tl]. now apply select_all.
Qed.

Lemma select_first_nan_column (col : list Q) :
  nonzero col ->
  select (first_nan_mask (length col)) (pct_change_col (map Fin col))
  = map Fin (column_returns col).
Proof.
  intros Hnz. rewrite (pct_change_col_clean col Hnz).
  destruct col as [|p0 rest]; [reflexivity|].
  cbn [length first_nan_mask select]. apply select_all.
  rewrite length_map. apply simple_returns_length.
Qed.

Lemma finite_series_map_Fin (l : list (string * list Q)) :
  finite_series (map (fun c => (fst c, map Fin (snd c))) l) = Some l.
Proof.
  induction l as [|[name col] l IH]; [reflexivity|].
  cbn [map finite_series fst snd].
  assert (Hcol : finite_vec (map Fin col) = Some col).
  { clear. induction col as [|x col IH]; simpl; auto. now rewrite IH. }
  now rewrite Hcol, IH.
Qed.

Lemma dropna_pct_change_clean (idx : list Z) (l : list (string * list Q)) :
  l <> [] ->
  Forall (fun c => length (snd c) = length idx) l ->
  Forall (fun c => nonzero (snd c)) l ->
  dropna (pct_change (finite_frame idx l))
  = finite_frame (tl idx) (returns_table l).
Proof.
  intros Hne Hlen Hnz.
  unfold dropna, pct_change, finite_frame, returns_table.
  cbn [fr_index fr_series]. rewrite !map_map. cbn [fst snd].
  assert (Hmask : row_mask (length idx)
                    (map (fun x : string * list Q =>
                            pct_change_col (map Fin (snd x))) l)
                  = first_nan_mask (length idx)).
  { rewrite <- (map_map snd (fun col => pct_change_col (map Fin col))).
    apply row_mask_first_nan.
    - destruct l; [contradiction|discriminate].
    - apply Forall_forall. intros col Hcol.
      apply in_map_iff in Hcol. destruct Hcol as [c [<- Hc]].
      rewrite Forall_forall in Hlen, Hnz. auto. }
  rewrite Hmask. f_equal.
  - apply select_first_nan_index.
  - apply map_ext_in. intros c Hc. f_equal.
    rewrite Forall_forall in Hlen, Hnz.
    rewrite <- (Hlen c Hc). apply select_first_nan_column. auto.
Qed.

(** X7: for a table of finite, non-zero prices with at least one column,
    the daily returns keep every row but the first: the index of the
    result is the index of the prices without its first date, the columns
    are those of the prices in the same order, every column holds one
    value per remaining date, and none of them is missing. *)
Theorem X7_daily_returns_of_clean_prices
    (resample : Frame -> outcome Frame) (idx : list Z)
    (l : list (string * list Q)) :
  l <> [] ->
  Forall (fun c => length (snd c) = length idx) l ->
  Forall (fun c => nonzero (snd c)) l ->
  exists r,
    compute_returns resample (finite_frame idx l) "daily" = Ok r /\
    fr_index r = tl idx /\
    fr_columns r = map fst l /\
    wf_frame r /\
    no_missing r.
Proof.
  intros Hne Hlen Hnz.
  exists (finite_frame (tl idx) (returns_table l)).
  split.
  { unfold compute_returns.
    change (String.eqb "daily" "daily") with true. cbv iota.
    now rewrite dropna_pct_change_clean. }
  split; [reflexivity|].
  split.
  { unfold fr_columns, finite_frame, returns_table. cbn [fr_series].
    rewrite !map_map. reflexivity. }
  split.
  { unfold wf_frame, finite_frame, returns_table. cbn [fr_series fr_index].
    apply Forall_forall. intros c Hc. rewrite map_map in Hc.
    apply in_map_iff in Hc. destruct Hc as [c0 [<- Hc0]]. cbn [snd fst].
    rewrite length_map, column_returns_length.
    rewrite Forall_forall in Hlen. rewrite (Hlen c0 Hc0). now destruct idx. }
  rewrite <- (dropna_pct_change_clean idx l Hne Hlen Hnz).
  apply dropna_no_missing.
Qed.

Lemma X7_daily_returns_of_clean_prices_witness :
  exists r,
    compute_returns (fun fr => Ok fr)
      (finite_frame [1; 2; 3]%Z [("A"%string, [100; 110; 99]);
                                 ("B"%string, [50; 50; 60])]) "daily"
    = Ok r /\
    fr_index r = [2; 3]%Z /\
    fr_columns r = ["A"%string; "B"%string].
Proof.
  destruct (X7_daily_returns_of_clean_prices (fun fr => Ok fr)
              [1; 2; 3]%Z
              [("A"%string, [100; 110; 99]); ("B"%string, [50; 50; 60])])
    as [r [H1 [H2 [H3 _]]]].
  - discriminate.
  - repeat constructor.
  - repeat constructor; unfold Qeq; simpl; lia.
  - exists r. split; [exact H1|]. split; [exact H2|exact H3].
Defined.

(** ** Gaps in the prices *)

Lemma np_div_nan_r (x : npfloat) : np_div x NaN = NaN.
Proof. destruct x; reflexivity. Qed.

Lemma np_div_cols_shift_next (col : list npfloat) (fill : npfloat) (t : nat) :
  nth_error (np_div_cols col (shift_from fill col)) (S t)
  = match nth_error col t, nth_error col (S t) with
    | Some p, Some x => Some (np_div x p)
    | _, _ => None
    end.
Proof.
  revert fill t. induction col as [|x col IH]; intros fill t.
  - now destruct t.
  - cbn [shift_from np_div_cols nth_error].
    destruct t as [|t].
    + destruct col as [|y col]; reflexivity.
    + rewrite IH. reflexivity.
Qed.

Lemma pct_change_col_first (col : list npfloat) (x : npfloat) :
  nth_error col 0 = Some x -> nth_error (pct_change_col col) 0 = Some NaN.
Proof.
  destruct col as [|y col]; [discriminate|]. intros _.
  unfold pct_change_col, shift. cbn [shift_from np_div_cols map nth_error].
  now rewrite np_div_nan_r.
Qed.

Lemma pct_change_col_gap (col : list npfloat) (t : nat) :
  nth_error col t = Some NaN -> nth_error (pct_change_col col) t = Some NaN.
Proof.
  intros H. destruct t as [|t]; [now apply (pct_change_col_first col NaN)|].
  unfold pct_change_col, shift.
  rewrite nth_error_map, np_div_cols_shift_next, H.
  destruct (nth_error col t) eqn:E; [reflexivity|].
  exfalso. assert (Hlt : (S t < length col)%nat)
    by (apply nth_error_Some; congruence).
  apply nth_error_None in E. lia.
Qed.

Lemma pct_change_col_after_gap (col : list npfloat) (t : nat) :
  nth_error col t = Some NaN ->
  nth_error (pct_change_col col) (S t) = None \/
  nth_error (pct_change_col col) (S t) = Some NaN.
Proof.
  intros H. unfold pct_change_col, shift.
  rewrite nth_error_map, np_div_cols_shift_next, H.
  destruct (nth_error col (S t)) as [x|]; [right|left; reflexivity].
  cbn [option_map]. now rewrite np_div_nan_r.
Qed.

Lemma and_mask_true (a b : list bool) (t : nat) :
  nth_error (and_mask a b) t = Some true ->
  nth_error a t = Some true /\ nth_error b t = Some true.
Proof.
  revert b t. induction a as [|x a IH]; intros [|y b] [|t] H; simpl in *;
    try discriminate.
  - inversion H as [E]. apply andb_prop in E. destruct E; subst. auto.
  - now apply IH.
Qed.

Lemma row_mask_true (T : nat) (cols : list (list npfloat)) (t : nat)
      (col : list npfloat) :
  nth_error (row_mask T cols) t = Some true -> In col cols ->
  exists f, nth_error col t = Some f /\ isna f = false.
Proof.
  induction cols as [|c cols IH]; intros Hm Hin; [contradiction|].
  cbn [row_mask fold_right] in Hm. fold (row_mask T cols) in Hm.
  apply and_mask_true in Hm. destruct Hm as [Hc Hrest].
  destruct Hin as [->|Hin]; [|now apply IH].
  rewrite nth_error_map in Hc.
  destruct (nth_error col t) as [f|]; [|discriminate].
  exists f. split; auto. cbn in Hc. inversion Hc as [E].
  unfold notna in E. now destruct (isna f).
Qed.

Lemma select_In {A} (m : list bool) (l : list A) (x : A) :
  In x (select m l) -> In x l.
Proof.
  revert l. induction m as [|b m IH]; intros [|y l] H; simpl in *;
    try contradiction.
  destruct b.
  - destruct H as [->|H]; auto.
  - auto.
Qed.

Lemma select_In_position {A} (m : list bool) (l : list A) (t : nat) (x : A) :
  NoDup l -> nth_error l t = Some x -> In x (select m l) ->
  nth_error m t = Some true.
Proof.
  intros Hnd. revert m t.
  induction Hnd as [|y l Hy Hnd IH]; intros [|b m] [|t] Ht Hin; simpl in *;
    try discriminate; try contradiction.
  - inversion Ht; subst. destruct b; auto.
    exfalso. apply Hy. eapply select_In; eauto.
  - assert (Hxl : In x l) by (eapply nth_error_In; eauto).
    destruct b.
    + destruct Hin as [->|Hin]; [contradiction|]. now apply IH.
    + now apply IH.
Qed.

(** X9: rows are dropped for every ticker at once.  In the daily returns
    the first date of the prices never appears, and a missing price of a
    single ticker at some date removes that date and the following one
    from the whole table. *)
Theorem X9_gap_removes_two_rows
    (resample : Frame -> outcome Frame) (prices r : Frame)
    (name : string) (col : list npfloat) :
  compute_returns resample prices "daily" = Ok r ->
  NoDup (fr_index prices) ->
  In (name, col) (fr_series prices) ->
  (forall lbl x, nth_error (fr_index prices) 0 = Some lbl ->
     nth_error col 0 = Some x -> ~ In lbl (fr_index r)) /\
  (forall t lbl, nth_error col t = Some NaN ->
     nth_error (fr_index prices) t = Some lbl -> ~ In lbl (fr_index r)) /\
  (forall t lbl, nth_error col t = Some NaN ->
     nth_error (fr_index prices) (S t) = Some lbl -> ~ In lbl (fr_index r)).
Proof.
  intros Hres Hnd Hin.
  unfold compute_returns in Hres.
  change (String.eqb "daily" "daily") with true in Hres. cbv iota in Hres.
  inversion Hres; subst r; clear Hres.
  unfold dropna, pct_change. cbn [fr_index fr_series].
  rewrite map_map. cbn [snd].
  set (m := row_mask _ _).
  assert (Hcol : In (pct_change_col col)
                    (map (fun x => pct_change_col (snd x)) (fr_series prices))).
  { apply in_map_iff. exists (name, col). auto. }
  assert (Hkey : forall t lbl,
            nth_error (fr_index prices) t = Some lbl ->
            In lbl (select m (fr_index prices)) ->
            exists f, nth_error (pct_change_col col) t = Some f /\
                      isna f = false).
  { intros t lbl Ht Hl.
    apply (row_mask_true _ _ t _ (select_In_position m _ t lbl Hnd Ht Hl) Hcol). }
  split; [|split].
  - intros lbl x Hl Hx Hl'.
    destruct (Hkey 0%nat lbl Hl Hl') as [f [Hf Hna]].
    rewrite (pct_change_col_first col x Hx) in Hf.
    inversion Hf; subst. discriminate.
  - intros t lbl Hgap Hl Hl'.
    destruct (Hkey t lbl Hl Hl') as [f [Hf Hna]].
    rewrite (pct_change_col_gap col t Hgap) in Hf.
    inversion Hf; subst. discriminate.
  - intros t lbl Hgap Hl Hl'.
    destruct (Hkey (S t) lbl Hl Hl') as [f [Hf Hna]].
    destruct (pct_change_col_after_gap col t Hgap) as [E|E];
      rewrite E in Hf; inversion Hf; subst; discriminate.
Qed.

Lemma X9_gap_removes_two_rows_witness :
  ~ In 3%Z
      (fr_index (dropna (pct_change
         (mkFrame [1; 2; 3; 4]%Z
            [("A"%string, [Fin 10; Fin 11; Fin 12; Fin 13]);
             ("B"%string, [Fin 5; NaN; Fin 6; Fin 7])])))).
Proof.
  refine (proj2 (proj2 (X9_gap_removes_two_rows (fun fr => Ok fr)
            (mkFrame [1; 2; 3; 4]%Z
               [("A"%string, [Fin 10; Fin 11; Fin 12; Fin 13]);
                ("B"%string, [Fin 5; NaN; Fin 6; Fin 7])])
            _ "B"%string [Fin 5; NaN; Fin 6; Fin 7] eq_refl _ _))
          1%nat 3%Z eq_refl eq_refl).
  - repeat constructor; simpl; intuition discriminate.
  - right. now left.
Defined.

(** * Properties of [download_price_data] *)

Lemma mem_In (s : string) (l : list string) : mem s l = true <-> In s l.
Proof.
  unfold mem. rewrite existsb_exists. split.
  - intros [x [Hx E]]. apply String.eqb_eq in E. now subst.
  - intros H. exists s. split; auto. apply String.eqb_refl.
Qed.

Lemma missing_tickers_In (tickers cols : list string) (t : string) :
  In t (missing_tickers tickers cols) <-> In t tickers /\ ~ In t cols.
Proof.
  unfold missing_tickers. rewrite filter_In. split.
  - intros [Hin Hm]. split; auto. intros Hc. apply mem_In in Hc.
    rewrite Hc in Hm. discriminate.
  - intros [Hin Hc]. split; auto.
    destruct (mem t cols) eqn:E; auto. apply mem_In in E. contradiction.
Qed.

Lemma existsb_notna (col : list npfloat) :
  existsb notna col = true <-> has_value col.
Proof.
  unfold has_value. rewrite existsb_exists. split.
  - intros [f [Hf E]]. exists f. split; auto.
    unfold notna in E. now destruct (isna f).
  - intros [f [Hf E]]. exists f. split; auto. unfold notna. now rewrite E.
Qed.

(** The run of the function on columns indexed by field and ticker. *)
Lemma download_ticker_columns (yf : yf_t) (tickers : list string)
      (start_date : string) (end_date : option string) (interval : string)
      (idx : list Z) (fields : list (string * list (string * list npfloat)))
      (cols : list (string * list npfloat)) :
  yf tickers start_date end_date interval = Ok (TickerColumns idx fields) ->
  lookup "Close" fields = Some cols ->
  download_price_data yf tickers start_date end_date interval
  = (Ok (dropna_all_columns (mkFrame idx cols)),
     Download tickers start_date end_date interval
       :: warning (missing_tickers tickers (map fst cols))).
Proof.
  intros Hyf Hclose. unfold download_price_data.
  unfold Io.bind at 1. cbn [Io.emit].
  unfold Io.bind at 1. unfold Io.lift. rewrite Hyf.
  cbn [get_close]. rewrite Hclose. cbn [option_map].
  unfold Io.bind at 1. cbn [Io.ret].
  unfold fr_columns. cbn [fr_series].
  fold (missing_tickers tickers (map fst cols)).
  destruct (missing_tickers tickers (map fst cols)); reflexivity.
Qed.

(** X10: a requested ticker whose closing column holds no value at all
    is removed from the result without being named in any warning: the
    warning is computed before the empty columns are dropped. *)
Theorem X10_empty_column_dropped_silently (yf : yf_t) (tickers : list string)
    (start_date : string) (end_date : option string) (interval : string)
    (idx : list Z) (fields : list (string * list (string * list npfloat)))
    (cols : list (string * list npfloat)) (t : string)
    (r : outcome Frame) (log : list event) :
  yf tickers start_date end_date interval = Ok (TickerColumns idx fields) ->
  lookup "Close" fields = Some cols ->
  In t (map fst cols) ->
  (forall col, In (t, col) cols -> Forall (fun f => isna f = true) col) ->
  download_price_data yf tickers start_date end_date interval = (r, log) ->
  exists prices,
    r = Ok prices /\
    ~ In t (fr_columns prices) /\
    (forall missing, In (PrintMissing missing) log -> ~ In t missing).
Proof.
  intros Hyf Hclose Hcol Hnan Hrun.
  rewrite (download_ticker_columns yf tickers _ _ _ idx fields cols Hyf Hclose)
    in Hrun.
  inversion Hrun; subst r log; clear Hrun.
  eexists. split; [reflexivity|]. split.
  - unfold fr_columns, dropna_all_columns. cbn [fr_series].
    intros Hin. apply in_map_iff in Hin.
    destruct Hin as [[name col] [Hname Hin]]. cbn in Hname. subst name.
    apply filter_In in Hin. destruct Hin as [Hin Hval]. cbn [snd] in Hval.
    apply existsb_notna in Hval. destruct Hval as [f [Hf Hna]].
    specialize (Hnan col Hin). rewrite Forall_forall in Hnan.
    rewrite (Hnan f Hf) in Hna. discriminate.
  - intros missing [Hev|Hev]; [discriminate|].
    unfold warning in Hev.
    destruct (missing_tickers tickers (map fst cols)) eqn:E;
      [contradiction|].
    destruct Hev as [Hev|[]]. inversion Hev; subst missing.
    rewrite <- E. intros Hm. apply missing_tickers_In in Hm.
    destruct Hm as [_ Hm]. contradiction.
Qed.

(** X11: the result keeps, unchanged and over the same index, exactly the
    closing columns that hold at least one value. *)
Theorem X11_result_columns_have_values (yf : yf_t) (tickers : list string)
    (start_date : string) (end_date : option string) (interval : string)
    (idx : list Z) (fields : list (string * list (string * list npfloat)))
    (cols : list (string * list npfloat)) (prices : Frame)
    (log : list event) :
  yf tickers start_date end_date interval = Ok (TickerColumns idx fields) ->
  lookup "Close" fields = Some cols ->
  download_price_data yf tickers start_date end_date interval
  = (Ok prices, log) ->
  fr_index prices = idx /\
  (forall name col,
     In (name, col) (fr_series prices) <->
     In (name, col) cols /\ has_value col).
Proof.
  intros Hyf Hclose Hrun.
  rewrite (download_ticker_columns yf tickers _ _ _ idx fields cols Hyf Hclose)
    in Hrun.
  inversion Hrun; subst prices log; clear Hrun.
  split; [reflexivity|].
  intros name col. unfold dropna_all_columns. cbn [fr_series].
  rewrite filter_In. cbn [snd]. now rewrite existsb_notna.
Qed.

Lemma X10_empty_column_dropped_silently_witness :
  exists prices,
    fst (download_price_data sample_yf sample_tickers "2020-01-01" None "1d")
    = Ok prices /\
    ~ In "BBB"%string (fr_columns prices) /\
    (forall missing,
       In (PrintMissing missing)
          (snd (download_price_data sample_yf sample_tickers "2020-01-01"
                  None "1d")) ->
       ~ In "BBB"%string missing).
Proof.
  apply (X10_empty_column_dropped_silently sample_yf sample_tickers
           "2020-01-01" None "1d" _ _ _ "BBB"%string _ _ eq_refl eq_refl).
  - right. now left.
  - intros col [H|[H|[]]]; inversion H; subst. repeat constructor.
  - reflexivity.
Defined.

Lemma X11_result_columns_have_values_witness :
  fr_index (mkFrame [1; 2; 3]%Z [("AAA"%string, [Fin 10; Fin 11; Fin 12])])
  = [1; 2; 3]%Z.
Proof.
  refine (proj1 (X11_result_columns_have_values sample_yf sample_tickers
                   "2020-01-01" None "1d" _ _ _ _ _ eq_refl eq_refl _)).
  reflexivity.
Defined.

(** ** Flat columns *)

Lemma download_flat_columns (yf : yf_t) (t : string) (rest : list string)
      (start_date : string) (end_date : option string) (interval : string)
      (idx : list Z) (fields : list (string * list npfloat))
      (vals : list npfloat) :
  yf (t :: rest) start_date end_date interval = Ok (FlatColumns idx fields) ->
  lookup "Close" fields = Some vals ->
  download_price_data yf (t :: rest) start_date end_date interval
  = (Ok (dropna_all_columns (mkFrame idx [(t, vals)])),
     Download (t :: rest) start_date end_date interval
       :: warning (missing_tickers (t :: rest) [t])).
Proof.
  intros Hyf Hclose. unfold download_price_data.
  unfold Io.bind at 1. cbn [Io.emit].
  unfold Io.bind at 1. unfold Io.lift. rewrite Hyf.
  cbn [get_close]. rewrite Hclose. cbn [option_map].
  unfold Io.bind at 1. cbn [Io.ret].
  unfold fr_columns. cbn [fr_series map fst].
  fold (missing_tickers (t :: rest) [t]).
  destruct (missing_tickers (t :: rest) [t]); reflexivity.
Qed.

(** X13: when the download has flat columns, the closing Series becomes
    the single column of the result under the name of the first requested
    ticker (no column at all if the Series holds no value), and every
    other requested ticker is reported missing. *)
Theorem X13_flat_columns_first_ticker (yf : yf_t) (t : string)
    (rest : list string) (start_date : string) (end_date : option string)
    (interval : string) (idx : list Z) (fields : list (string * list npfloat))
    (vals : list npfloat) (r : outcome Frame) (log : list event) :
  yf (t :: rest) start_date end_date interval = Ok (FlatColumns idx fields) ->
  lookup "Close" fields = Some vals ->
  download_price_data yf (t :: rest) start_date end_date interval = (r, log) ->
  exists prices,
    r = Ok prices /\
    fr_index prices = idx /\
    (has_value vals -> fr_series prices = [(t, vals)]) /\
    (~ has_value vals -> fr_series prices = []) /\
    (forall u, In u rest -> u <> t ->
       exists missing, In (PrintMissing missing) log /\ In u missing).
Proof.
  intros Hyf Hclose Hrun.
  rewrite (download_flat_columns yf t rest _ _ _ idx fields vals Hyf Hclose)
    in Hrun.
  remember (missing_tickers (t :: rest) [t]) as m eqn:Em.
  inversion Hrun; subst r log; clear Hrun.
  eexists. split; [reflexivity|]. split; [reflexivity|].
  unfold dropna_all_columns. cbn [fr_series filter snd].
  split; [|split].
  - intros Hv. apply existsb_notna in Hv. now rewrite Hv.
  - intros Hv. destruct (existsb notna vals) eqn:E; auto.
    apply existsb_notna in E. contradiction.
  - intros u Hu Hne.
    assert (Hm : In u m).
    { rewrite Em. apply missing_tickers_In. split; [now right|].
      intros [E|[]]. now subst. }
    exists m. split; auto.
    right. unfold warning. clear Em.
    destruct m; [contradiction|now left].
Qed.

Lemma X13_flat_columns_first_ticker_witness :
  exists prices,
    fst (download_price_data flat_yf ["AAA"%string; "BBB"%string]
           "2020-01-01" None "1d") = Ok prices /\
    fr_index prices = [1; 2]%Z.
Proof.
  destruct (X13_flat_columns_first_ticker flat_yf "AAA"%string ["BBB"%string]
              "2020-01-01" None "1d" _ _ _ _ _ eq_refl eq_refl eq_refl)
    as [prices [H1 [H2 _]]].
  exists prices. split; assumption.
Defined.


(** * Properties of [main] *)

Lemma download_log (yf : yf_t) (tickers : list string) (start_date : string)
      (end_date : option string) (interval : string) :
  exists warn,
    snd (download_price_data yf tickers start_date end_date interval)
    = Download tickers start_date end_date interval :: warn /\
    Forall is_warning warn.
Proof.
  unfold download_price_data.
  unfold Io.bind at 1. cbn [Io.emit].
  unfold Io.bind at 1. unfold Io.lift.
  destruct (yf tickers start_date end_date interval) as [data|e].
  - destruct (get_close data) as [[idx vals|fr]|].
    + destruct tickers as [|t rest].
      * exists []. split; [reflexivity|constructor].
      * unfold Io.bind, Io.ret, Io.emit.
        destruct (filter _ _) eqn:E.
        -- exists []. split; [reflexivity|constructor].
        -- eexists. split; [reflexivity|].
           constructor; [eexists; reflexivity|constructor].
    + unfold Io.bind, Io.ret, Io.emit.
      destruct (filter _ _) eqn:E.
      * exists []. split; [reflexivity|constructor].
      * eexists. split; [reflexivity|].
        constructor; [eexists; reflexivity|constructor].
    + exists []. split; [reflexivity|constructor].
  - exists []. split; [reflexivity|constructor].
Qed.

Lemma get_sp500_tickers_log (rh : string -> outcome (list Table)) :
  snd (get_sp500_tickers rh) = [].
Proof.
  unfold get_sp500_tickers, Io.bind, Io.lift.
  destruct (rh sp500_url) as [[|df tables]|e]; try reflexivity.
  destruct (lookup "Symbol" df); reflexivity.
Qed.

(** The run of [main], step by step. *)
Lemma main_run (world : World) :
  main world =
  match fst (get_sp500_tickers (read_html world)) with
  | Raise e => (Raise e, [])
  | Ok all_tickers =>
      let tickers := firstn 500 all_tickers in
      let start_date := ten_years_ago world in
      let d1 := download_price_data (yf_download world) tickers start_date
                  None "1d" in
      let d2 := download_price_data (yf_download world) ["^GSPC"%string]
                  start_date None "1d" in
      let banner := PrintDownloading (length tickers) start_date in
      match fst d1 with
      | Raise e => (Raise e, banner :: snd d1)
      | Ok equity_prices =>
          match fst d2 with
          | Raise e =>
              (Raise e, banner :: snd d1 ++ Print downloading_index :: snd d2)
          | Ok index_prices =>
              let equity := dropna (pct_change equity_prices) in
              let index_ := dropna (pct_change index_prices) in
              let pre := banner :: snd d1 ++ Print downloading_index :: snd d2 in
              match write_csv world "equity_returns.csv" equity with
              | Raise e => (Raise e, pre ++ [ToCsv "equity_returns.csv" equity])
              | Ok _ =>
                  match write_csv world "index_returns.csv" index_ with
                  | Raise e =>
                      (Raise e,
                       pre ++ [ToCsv "equity_returns.csv" equity;
                               ToCsv "index_returns.csv" index_])
                  | Ok _ =>
                      (Ok tt,
                       pre ++ [ToCsv "equity_returns.csv" equity;
                               ToCsv "index_returns.csv" index_;
                               Print saved])
                  end
              end
          end
      end
  end.
Proof.
  unfold main.
  pose proof (get_sp500_tickers_log (read_html world)) as Hlog.
  destruct (get_sp500_tickers (read_html world)) as [[all|e] log0];
    cbn [fst snd] in *; subst log0; [|reflexivity].
  unfold Io.bind at 1. cbv zeta.
  unfold Io.bind at 1. cbn [Io.emit].
  unfold Io.bind at 1.
  destruct (download_price_data (yf_download world) (firstn 500 all)
              (ten_years_ago world) None "1d") as [[ep|e] l1];
    cbn [fst snd]; [|reflexivity].
  unfold Io.bind at 1. unfold Io.lift at 1. unfold compute_returns at 1.
  change (String.eqb "daily" "daily") with true. cbv iota.
  unfold Io.bind at 1. cbn [Io.emit].
  unfold Io.bind at 1.
  destruct (download_price_data (yf_download world) ["^GSPC"%string]
              (ten_years_ago world) None "1d") as [[ip|e] l2];
    cbn [fst snd].
  - unfold to_csv, Io.bind, Io.lift, Io.emit, compute_returns.
    change (String.eqb "daily" "daily") with true. cbv iota.
    destruct (write_csv world "equity_returns.csv" _) as [[]|e1].
    + destruct (write_csv world "index_returns.csv" _) as [[]|e2];
        cbn [app]; rewrite <- ?app_assoc; cbn [app]; rewrite ?app_nil_r;
        rewrite <- ?app_assoc; reflexivity.
    + cbn [app]. rewrite ?app_nil_r. rewrite <- ?app_assoc. reflexivity.
  - cbn [app]. rewrite ?app_nil_r. reflexivity.
Qed.

Lemma warning_not_download (warn : list event) tickers s e i :
  Forall is_warning warn -> ~ In (Download tickers s e i) warn.
Proof.
  intros H Hin. rewrite Forall_forall in H.
  destruct (H _ Hin) as [m Hm]. discriminate.
Qed.

(** The events before the first write hold no call of [to_csv] and no
    closing message. *)
Lemma before_writes (w1 w2 : list event) (banner : event) (dl1 dl2 : event)
      (ev : event) :
  Forall is_warning w1 -> Forall is_warning w2 ->
  (exists n s, banner = PrintDownloading n s) ->
  (exists t s e i, dl1 = Download t s e i) ->
  (exists t s e i, dl2 = Download t s e i) ->
  In ev (banner :: (dl1 :: w1) ++ Print downloading_index :: dl2 :: w2) ->
  (forall p fr, ev <> ToCsv p fr) /\ ev <> Print saved.
Proof.
  intros Hw1 Hw2 [n [s ->]] [t1 [s1 [e1 [i1 ->]]]] [t2 [s2 [e2 [i2 ->]]]] Hin.
  rewrite Forall_forall in Hw1, Hw2.
  destruct Hin as [<-|[<-|Hin]]; [split; [intros p fr|]; discriminate..|].
  apply in_app_or in Hin. destruct Hin as [Hin|[<-|[<-|Hin]]].
  - destruct (Hw1 _ Hin) as [m ->]. split; [intros p fr|]; discriminate.
  - split; [intros p fr|]; discriminate.
  - split; [intros p fr|]; discriminate.
  - destruct (Hw2 _ Hin) as [m ->]. split; [intros p fr|]; discriminate.
Qed.

(** X15: [main] calls [to_csv] only after both downloads have succeeded,
    on the daily returns of the two downloads, which hold no missing
    value; it asks for [equity_returns.csv] first and for
    [index_returns.csv] only once the first write has succeeded, so a
    failing second write leaves the first file written; and the closing
    message is printed exactly when [main] returns. *)
Theorem X15_main_writes_after_downloads (world : World) (r : outcome unit)
    (log : list event) :
  main world = (r, log) ->
  (forall p fr, In (ToCsv p fr) log ->
     no_missing fr /\
     exists all equity_prices index_prices,
       fst (get_sp500_tickers (read_html world)) = Ok all /\
       fst (download_price_data (yf_download world) (firstn 500 all)
              (ten_years_ago world) None "1d") = Ok equity_prices /\
       fst (download_price_data (yf_download world) ["^GSPC"%string]
              (ten_years_ago world) None "1d") = Ok index_prices /\
       ((p = "equity_returns.csv"%string /\
         fr = dropna (pct_change equity_prices)) \/
        (p = "index_returns.csv"%string /\
         fr = dropna (pct_change index_prices) /\
         write_csv world "equity_returns.csv"
           (dropna (pct_change equity_prices)) = Ok tt /\
         In (ToCsv "equity_returns.csv" (dropna (pct_change equity_prices)))
            log))) /\
  (In (Print saved) log <-> r = Ok tt) /\
  (r = Ok tt ->
   exists pre equity index_,
     log = pre ++ [ToCsv "equity_returns.csv" equity;
                   ToCsv "index_returns.csv" index_;
                   Print saved] /\
     (forall p fr, ~ In (ToCsv p fr) pre) /\
     write_csv world "equity_returns.csv" equity = Ok tt /\
     write_csv world "index_returns.csv" index_ = Ok tt).
Proof.
  intros Hrun. rewrite main_run in Hrun.
  destruct (fst (get_sp500_tickers (read_html world))) as [all|e0] eqn:Hall.
  2:{ inversion Hrun; subst.
      split; [intros p fr []|]. split; [|discriminate].
      split; [intros []|discriminate]. }
  cbv zeta in Hrun.
  remember (firstn 500 all) as tk eqn:Etk.
  destruct (download_log (yf_download world) tk
              (ten_years_ago world) None "1d") as [w1 [Hl1 Hw1]].
  destruct (download_log (yf_download world) ["^GSPC"%string]
              (ten_years_ago world) None "1d") as [w2 [Hl2 Hw2]].
  rewrite Hl1, Hl2 in Hrun.
  set (banner := PrintDownloading (length tk) (ten_years_ago world)) in *.
  set (dl1 := Download tk (ten_years_ago world) None "1d") in *.
  set (dl2 := Download ["^GSPC"%string] (ten_years_ago world) None "1d") in *.
  assert (Hpre : forall ev,
            In ev (banner :: (dl1 :: w1) ++ Print downloading_index :: dl2 :: w2) ->
            (forall p fr, ev <> ToCsv p fr) /\ ev <> Print saved).
  { intros ev. apply before_writes; auto; unfold banner, dl1, dl2; eauto 6. }
  assert (Hpre1 : forall ev, In ev (banner :: dl1 :: w1) ->
            (forall p fr, ev <> ToCsv p fr) /\ ev <> Print saved).
  { intros ev Hin. apply Hpre. destruct Hin as [H|H]; [now left|].
    right. apply in_or_app. now left. }
  destruct (fst (download_price_data (yf_download world) tk _ _ _))
    as [ep|e1] eqn:Hd1.
  2:{ inversion Hrun; subst.
      split; [intros p fr Hin; exfalso; exact (proj1 (Hpre1 _ Hin) p fr eq_refl)|].
      split; [|discriminate].
      split; [intros Hin; exfalso; exact (proj2 (Hpre1 _ Hin) eq_refl)
             |discriminate]. }
  destruct (fst (download_price_data (yf_download world) ["^GSPC"%string] _ _ _))
    as [ip|e2] eqn:Hd2.
  2:{ inversion Hrun; subst.
      split; [intros p fr Hin; exfalso; exact (proj1 (Hpre _ Hin) p fr eq_refl)|].
      split; [|discriminate].
      split; [intros Hin; exfalso; exact (proj2 (Hpre _ Hin) eq_refl)
             |discriminate]. }
  cbv zeta in Hrun.
  remember (banner :: (dl1 :: w1) ++ Print downloading_index :: dl2 :: w2)
    as pre eqn:Epre in *.
  assert (Hd1' : fst (download_price_data (yf_download world) (firstn 500 all)
                        (ten_years_ago world) None "1d") = Ok ep)
    by (rewrite <- Etk; exact Hd1).
  destruct (write_csv world "equity_returns.csv" (dropna (pct_change ep)))
    as [[]|e3] eqn:Hw3.
  2:{ inversion Hrun as [[Hr Hlog]]. split.
      - intros p fr Hin. apply in_app_or in Hin. destruct Hin as [Hin|Hin].
        + exfalso. exact (proj1 (Hpre _ Hin) p fr eq_refl).
        + destruct Hin as [Hin|[]]. injection Hin as <- <-.
          split; [apply dropna_no_missing|].
          exists all, ep, ip.
          split; [reflexivity|]. split; [exact Hd1'|]. split; [reflexivity|].
          left. now split.
      - split; [|discriminate]. split; [|discriminate].
        intros Hin. apply in_app_or in Hin. destruct Hin as [Hin|Hin].
        + exfalso. exact (proj2 (Hpre _ Hin) eq_refl).
        + destruct Hin as [Hin|[]]. discriminate. }
  assert (Hwrites : forall tail p fr,
            (forall ev, In ev tail -> ev = Print saved) ->
            In (ToCsv p fr)
               (pre ++ ToCsv "equity_returns.csv" (dropna (pct_change ep))
                    :: ToCsv "index_returns.csv" (dropna (pct_change ip))
                    :: tail) ->
            no_missing fr /\
            ((p = "equity_returns.csv"%string /\
              fr = dropna (pct_change ep)) \/
             (p = "index_returns.csv"%string /\
              fr = dropna (pct_change ip)))).
  { intros tail p fr Htail Hin.
    apply in_app_or in Hin. destruct Hin as [Hin|[Hin|[Hin|Hin]]].
    - exfalso. exact (proj1 (Hpre _ Hin) p fr eq_refl).
    - injection Hin as <- <-. split; [apply dropna_no_missing|]. left. now split.
    - injection Hin as <- <-. split; [apply dropna_no_missing|]. right. now split.
    - specialize (Htail _ Hin). discriminate. }
  assert (Hfirst : forall tail,
            In (ToCsv "equity_returns.csv" (dropna (pct_change ep)))
               (pre ++ ToCsv "equity_returns.csv" (dropna (pct_change ep))
                    :: ToCsv "index_returns.csv" (dropna (pct_change ip))
                    :: tail)).
  { intros tail. apply in_or_app. right. now left. }
  destruct (write_csv world "index_returns.csv" (dropna (pct_change ip)))
    as [[]|e4] eqn:Hw4; inversion Hrun as [[Hr Hlog]].
  - split.
    { intros p fr Hin.
      destruct (Hwrites [Print saved] p fr) as [Hnm Hcase]; auto.
      { intros ev [<-|[]]. reflexivity. }
      split; [exact Hnm|]. exists all, ep, ip.
      split; [reflexivity|]. split; [exact Hd1'|]. split; [reflexivity|].
      destruct Hcase as [[-> ->]|[-> ->]]; [left; now split|].
      right. repeat split; auto. }
    split.
    { split; [reflexivity|]. intros _. apply in_or_app. right.
      right. right. now left. }
    intros _. exists pre, (dropna (pct_change ep)), (dropna (pct_change ip)).
    split; [reflexivity|].
    split; [intros p fr Hin; exact (proj1 (Hpre _ Hin) p fr eq_refl)|].
    split; assumption.
  - split.
    { intros p fr Hin.
      destruct (Hwrites [] p fr) as [Hnm Hcase]; auto.
      { intros ev []. }
      split; [exact Hnm|]. exists all, ep, ip.
      split; [reflexivity|]. split; [exact Hd1'|]. split; [reflexivity|].
      destruct Hcase as [[-> ->]|[-> ->]]; [left; now split|].
      right. repeat split; auto. }
    split; [|discriminate].
    split; [|discriminate].
    intros Hin. apply in_app_or in Hin. destruct Hin as [Hin|Hin].
    + exfalso. exact (proj2 (Hpre _ Hin) eq_refl).
    + destruct Hin as [Hin|[Hin|[]]]; discriminate.
Qed.

Lemma X15_main_writes_after_downloads_witness :
  (exists fr, In (ToCsv "equity_returns.csv" fr) (snd (main full_disk_world))) /\
  ~ In (Print saved) (snd (main full_disk_world)).
Proof.
  pose proof (X15_main_writes_after_downloads full_disk_world
                (fst (main full_disk_world)) (snd (main full_disk_world))
                (surjective_pairing _)) as [_ [Hsaved _]].
  split.
  - eexists. vm_compute. do 6 right. left. reflexivity.
  - intros Hin. apply Hsaved in Hin. vm_compute in Hin. discriminate.
Defined.

(** X16: every download [main] asks for starts ten years before today,
    has no end date and a daily interval; it is either the request for
    the index ^GSPC alone or the request for the first 500 entries at most
    of the Symbol column of the first table of the listing page. *)
Theorem X16_main_download_requests (world : World) (r : outcome unit)
    (log : list event) (tickers : list string) (start_date : string)
    (end_date : option string) (interval : string) :
  main world = (r, log) ->
  In (Download tickers start_date end_date interval) log ->
  start_date = ten_years_ago world /\ end_date = None /\
  interval = "1d"%string /\
  (tickers = ["^GSPC"%string] \/
   ((length tickers <= 500)%nat /\
    exists df tables col,
      read_html world sp500_url = Ok (df :: tables) /\
      lookup "Symbol" df = Some col /\
      tickers = firstn 500 col)).
Proof.
  intros Hrun Hin. rewrite main_run in Hrun.
  destruct (fst (get_sp500_tickers (read_html world))) as [all|e0] eqn:Hall.
  2:{ inversion Hrun; subst. contradiction. }
  cbv zeta in Hrun.
  assert (Hsrc : exists df tables col,
            read_html world sp500_url = Ok (df :: tables) /\
            lookup "Symbol" df = Some col /\ all = col).
  { unfold get_sp500_tickers, Io.bind, Io.lift in Hall.
    destruct (read_html world sp500_url) as [[|df tables]|e]; try discriminate.
    destruct (lookup "Symbol" df) as [col|] eqn:Hcol; try discriminate.
    cbn in Hall. inversion Hall; subst. eauto 6. }
  remember (firstn 500 all) as tk eqn:Etk.
  destruct (download_log (yf_download world) tk
              (ten_years_ago world) None "1d") as [w1 [Hl1 Hw1]].
  destruct (download_log (yf_download world) ["^GSPC"%string]
              (ten_years_ago world) None "1d") as [w2 [Hl2 Hw2]].
  rewrite Hl1, Hl2 in Hrun.
  set (dl1 := Download tk (ten_years_ago world) None "1d") in *.
  set (dl2 := Download ["^GSPC"%string] (ten_years_ago world) None "1d") in *.
  set (ev := Download tickers start_date end_date interval) in *.
  assert (Hpre1 : forall banner, In ev (banner :: dl1 :: w1) ->
            (exists n s, banner = PrintDownloading n s) -> ev = dl1).
  { intros banner [H|[H|H]] [n [s ->]]; try discriminate; auto.
    now elim (warning_not_download _ _ _ _ _ Hw1 H). }
  assert (Hpre : forall banner,
            In ev (banner :: (dl1 :: w1) ++ Print downloading_index :: dl2 :: w2) ->
            (exists n s, banner = PrintDownloading n s) ->
            ev = dl1 \/ ev = dl2).
  { intros banner [H|H] [n [s ->]]; [discriminate|].
    apply in_app_or in H. destruct H as [[H|H]|[H|[H|H]]];
      try discriminate; auto.
    - now elim (warning_not_download _ _ _ _ _ Hw1 H).
    - now elim (warning_not_download _ _ _ _ _ Hw2 H). }
  assert (Hcases : ev = dl1 \/ ev = dl2).
  { destruct (fst (download_price_data (yf_download world) tk
                     _ _ _)) as [ep|e1].
    - destruct (fst (download_price_data (yf_download world)
                       ["^GSPC"%string] _ _ _)) as [ip|e2].
      + cbv zeta in Hrun.
        remember (PrintDownloading (length tk) (ten_years_ago world)
                  :: (dl1 :: w1) ++ Print downloading_index :: dl2 :: w2)
          as pre eqn:Epre.
        assert (Hin' : In ev pre).
        { destruct (write_csv world "equity_returns.csv" _) as [[]|e3];
            [destruct (write_csv world "index_returns.csv" _) as [[]|e4]|];
            inversion Hrun as [[Hr Hlog]]; rewrite <- Hlog in Hin;
            apply in_app_or in Hin; destruct Hin as [Hin|Hin]; auto;
            repeat (destruct Hin as [Hin|Hin]; try discriminate);
            contradiction. }
        rewrite Epre in Hin'. apply (Hpre _ Hin'). eauto.
      + inversion Hrun as [[Hr Hlog]]. rewrite <- Hlog in Hin.
        apply (Hpre _ Hin). eauto.
    - inversion Hrun as [[Hr Hlog]]. rewrite <- Hlog in Hin.
      left. apply (Hpre1 _ Hin). eauto. }
  unfold ev, dl1, dl2 in Hcases.
  destruct Hcases as [E|E]; inversion E; subst;
    (split; [reflexivity|]); (split; [reflexivity|]); (split; [reflexivity|]).
  - right. split; [apply firstn_le_length|].
    destruct Hsrc as [df [tables [col [H1 [H2 H3]]]]]. subst col.
    exists df, tables, all. auto.
  - now left.
Qed.

Lemma X16_main_download_requests_witness :
  "2016-11-03"%string = ten_years_ago sample_world /\
  (None : option string) = None /\ "1d"%string = "1d"%string /\
  (sample_tickers = ["^GSPC"%string] \/
   ((length sample_tickers <= 500)%nat /\
    exists df tables col,
      read_html sample_world sp500_url = Ok (df :: tables) /\
      lookup "Symbol" df = Some col /\
      sample_tickers = firstn 500 col)).
Proof.
  apply (X16_main_download_requests sample_world (fst (main sample_world))
           (snd (main sample_world)) sample_tickers "2016-11-03" None "1d").
  - now destruct (main sample_world).
  - vm_compute. right. now left.
Defined.

(** * From prices to weights *)

Lemma returns_table_wf (idx : list Z) (l : list (string * list Q)) :
  Forall (fun c => length (snd c) = length idx) l ->
  wf_df (mkDataFrame (length (tl idx)) (returns_table l)).
Proof.
  intros Hlen. unfold wf_df, returns_table. cbn [nobs series].
  apply Forall_forall. intros c Hc.
  apply in_map_iff in Hc. destruct Hc as [c0 [<- Hc0]]. cbn [snd].
  rewrite column_returns_length. rewrite Forall_forall in Hlen.
  rewrite (Hlen c0 Hc0). now destruct idx.
Qed.

Lemma too_few_observations_no_weights (ecos : solver_t) (h : heap)
      (returns : addr) (df : DataFrame) (rf : Q) :
  solver_sound ecos -> holds_frame h returns df ->
  wf_df df -> (nobs df < 2)%nat -> (1 <= length (columns df))%nat ->
  forall s,
    result_of (mean_variance_sharpe_maximization ecos returns rf h) <> Ok s.
Proof.
  intros Hsound Hdf Hwf HT Hn s.
  rewrite (program_run ecos h returns df rf Hdf). cbv zeta.
  destruct (Nat.eq_dec (length (columns df)) 1) as [H1|H1].
  - rewrite single_asset_accepted by assumption.
    destruct (ecos (problem_of df rf)) as [e|[w|]] eqn:Hsol; cbn;
      try discriminate.
    exfalso. destruct (Hsound _ _ Hsol) as [_ [P [HP _]]].
    cbn [problem_of qp_P] in HP.
    rewrite (df_cov_not_finite df) in HP by auto. discriminate.
  - rewrite cov_rejected by (auto; lia). discriminate.
Qed.

(** X17: two price observations are not enough.  For finite, non-zero
    prices with at most two rows, the daily returns have at most one
    observation, and the optimizer run on them with a sound solver never
    returns weights: at least three price rows are needed. *)
Theorem X17_three_price_rows_needed
    (resample : Frame -> outcome Frame) (idx : list Z)
    (l : list (string * list Q)) (r : Frame) (df : DataFrame)
    (ecos : solver_t) (h : heap) (returns : addr) (rf : Q) :
  l <> [] ->
  Forall (fun c => length (snd c) = length idx) l ->
  Forall (fun c => nonzero (snd c)) l ->
  (length idx <= 2)%nat ->
  compute_returns resample (finite_frame idx l) "daily" = Ok r ->
  to_dataframe r = Some df ->
  solver_sound ecos ->
  holds_frame h returns df ->
  (nobs df <= 1)%nat /\
  forall s,
    result_of (mean_variance_sharpe_maximization ecos returns rf h) <> Ok s.
Proof.
  intros Hne Hlen Hnz HT Hres Hto Hsound Hdf.
  unfold compute_returns in Hres.
  change (String.eqb "daily" "daily") with true in Hres. cbv iota in Hres.
  rewrite (dropna_pct_change_clean idx l Hne Hlen Hnz) in Hres.
  inversion Hres; subst r; clear Hres.
  unfold to_dataframe, finite_frame in Hto. cbn [fr_series fr_index] in Hto.
  rewrite finite_series_map_Fin in Hto. inversion Hto; subst df; clear Hto.
  assert (Hobs : (length (tl idx) <= 1)%nat).
  { destruct idx as [|i idx]; simpl in *; lia. }
  split; [exact Hobs|].
  apply (too_few_observations_no_weights _ _ _ _ _ Hsound Hdf).
  - now apply returns_table_wf.
  - cbn [nobs]. lia.
  - unfold columns, returns_table. cbn [series]. rewrite !length_map.
    destruct l; [contradiction|simpl; lia].
Qed.

Lemma X17_three_price_rows_needed_witness :
  ~ exists s,
      result_of (mean_variance_sharpe_maximization uncorrelated_solver 0%nat 0
                   [ODataFrame
                      (mkDataFrame 1 (returns_table [("A"%string, [100; 110])]))])
      = Ok s.
Proof.
  intros [s Hs]. revert Hs.
  refine (proj2 (X17_three_price_rows_needed (fun fr => Ok fr) [1; 2]%Z
            [("A"%string, [100; 110])] _ _ uncorrelated_solver
            [ODataFrame
               (mkDataFrame 1 (returns_table [("A"%string, [100; 110])]))]
            0%nat 0 _ _ _ _ _ _ uncorrelated_solver_sound eq_refl) s).
  - discriminate.
  - repeat constructor.
  - repeat constructor; unfold Qeq; simpl; lia.
  - simpl; lia.
  - vm_compute. reflexivity.
  - vm_compute. reflexivity.
Defined.

(** ** A price of zero *)

Lemma select_nth_In {A} (m : list bool) (l : list A) (t : nat) (x : A) :
  nth_error m t = Some true -> nth_error l t = Some x -> In x (select m l).
Proof.
  revert l t. induction m as [|b m IH]; intros [|y l] [|t] Hm Hl;
    simpl in *; try discriminate.
  - inversion Hm; inversion Hl; subst. now left.
  - destruct b; [right|]; eapply IH; eauto.
Qed.

Lemma and_mask_true_intro (a b : list bool) (t : nat) :
  nth_error a t = Some true -> nth_error b t = Some true ->
  nth_error (and_mask a b) t = Some true.
Proof.
  revert b t. induction a as [|x a IH]; intros [|y b] [|t] Ha Hb;
    simpl in *; try discriminate.
  - inversion Ha; inversion Hb; subst. reflexivity.
  - now apply IH.
Qed.

Lemma repeat_true_nth (T t : nat) :
  (t < T)%nat -> nth_error (repeat true T) t = Some true.
Proof.
  revert t. induction T as [|T IH]; intros [|t] H; simpl; try lia; auto.
  apply IH. lia.
Qed.

Lemma row_mask_true_intro (T : nat) (cols : list (list npfloat)) (t : nat) :
  (t < T)%nat ->
  (forall col, In col cols ->
     exists f, nth_error col t = Some f /\ isna f = false) ->
  nth_error (row_mask T cols) t = Some true.
Proof.
  intros Ht. induction cols as [|c cols IH]; intros H.
  - now apply repeat_true_nth.
  - cbn [row_mask fold_right]. fold (row_mask T cols).
    apply and_mask_true_intro.
    + destruct (H c (or_introl eq_refl)) as [f [Hf Hna]].
      rewrite nth_error_map, Hf. cbn. unfold notna. now rewrite Hna.
    + apply IH. intros col Hcol. apply H. now right.
Qed.

Lemma pct_change_col_finite_next (pq : list Q) (t : nat) (p x : Q) :
  nth_error pq t = Some p -> nth_error pq (S t) = Some x ->
  nth_error (pct_change_col (map Fin pq)) (S t)
  = Some (np_sub (np_true_divide x p) 1).
Proof.
  intros Hp Hx. unfold pct_change_col, shift.
  rewrite nth_error_map, np_div_cols_shift_next, !nth_error_map, Hp, Hx.
  reflexivity.
Qed.

Lemma np_true_divide_zero (x p : Q) :
  p == 0 -> ~ x == 0 ->
  is_infinite (np_sub (np_true_divide x p) 1) = true.
Proof.
  intros Hp Hx. unfold np_true_divide.
  rewrite (Qeq_bool_true _ _ Hp), (Qeq_bool_false _ _ Hx).
  destruct (Qle_bool 0 x); reflexivity.
Qed.

Lemma np_true_divide_notna (x p : Q) :
  ~ (p == 0 /\ x == 0) -> isna (np_sub (np_true_divide x p) 1) = false.
Proof.
  intros H. unfold np_true_divide.
  destruct (Qeq_bool p 0) eqn:Ep; [|reflexivity].
  destruct (Qeq_bool x 0) eqn:Ex.
  - exfalso. apply H. split; now apply Qeq_bool_eq.
  - destruct (Qle_bool 0 x); reflexivity.
Qed.

Lemma finite_vec_infinite (col : list npfloat) (f : npfloat) :
  In f col -> is_infinite f = true -> finite_vec col = None.
Proof.
  induction col as [|g col IH]; intros Hin Hf; [contradiction|].
  destruct Hin as [->|Hin].
  - destruct f; try discriminate; reflexivity.
  - cbn [finite_vec]. rewrite (IH Hin Hf). now destruct g.
Qed.

Lemma finite_series_infinite (l : list (string * list npfloat))
      (name : string) (col : list npfloat) (f : npfloat) :
  In (name, col) l -> In f col -> is_infinite f = true ->
  finite_series l = None.
Proof.
  induction l as [|[n c] l IH]; intros Hin Hf Hinf; [contradiction|].
  cbn [finite_series]. destruct Hin as [E|Hin].
  - inversion E; subst. now rewrite (finite_vec_infinite col f Hf Hinf).
  - rewrite (IH Hin Hf Hinf). now destruct (finite_vec c).
Qed.

(** X18: missing values are dropped, infinite ones are not.  For finite
    prices, a price of zero followed by a non-zero price of the same
    ticker, on a date where no ticker has two zero prices in a row, leaves
    an infinite return in the daily returns; the table is then no table of
    finite values for the optimizer. *)
Theorem X18_zero_price_leaves_infinite_return
    (resample : Frame -> outcome Frame) (idx : list Z)
    (l : list (string * list Q)) (r : Frame) (name : string) (pq : list Q)
    (t : nat) (p x : Q) :
  Forall (fun c => length (snd c) = length idx) l ->
  compute_returns resample (finite_frame idx l) "daily" = Ok r ->
  In (name, pq) l ->
  nth_error pq t = Some p -> p == 0 ->
  nth_error pq (S t) = Some x -> ~ x == 0 ->
  (forall c a b, In c l -> nth_error (snd c) t = Some a ->
     nth_error (snd c) (S t) = Some b -> ~ (a == 0 /\ b == 0)) ->
  (exists col f,
     In (name, col) (fr_series r) /\ In f col /\ is_infinite f = true) /\
  to_dataframe r = None.
Proof.
  intros Hlen Hres Hin Hp Hp0 Hx Hx0 Hrow.
  unfold compute_returns in Hres.
  change (String.eqb "daily" "daily") with true in Hres. cbv iota in Hres.
  inversion Hres; subst r; clear Hres.
  rewrite Forall_forall in Hlen.
  assert (HT : (S t < length idx)%nat).
  { rewrite <- (Hlen _ Hin). cbn [snd]. apply nth_error_Some. congruence. }
  set (fr := pct_change (finite_frame idx l)).
  set (m := row_mask (length (fr_index fr)) (map snd (fr_series fr))).
  assert (Hm : nth_error m (S t) = Some true).
  { apply row_mask_true_intro; [exact HT|].
    intros col Hcol. unfold fr, pct_change, finite_frame in Hcol.
    cbn [fr_series] in Hcol. rewrite !map_map in Hcol. cbn [fst snd] in Hcol.
    apply in_map_iff in Hcol. destruct Hcol as [c [<- Hc]].
    assert (Hc1 : (S t < length (snd c))%nat) by (rewrite (Hlen _ Hc); exact HT).
    destruct (nth_error (snd c) (S t)) as [b|] eqn:Hb;
      [|apply nth_error_None in Hb; lia].
    destruct (nth_error (snd c) t) as [a|] eqn:Ha;
      [|apply nth_error_None in Ha; lia].
    rewrite (pct_change_col_finite_next _ t a b Ha Hb).
    eexists. split; [reflexivity|].
    apply np_true_divide_notna. exact (Hrow c a b Hc Ha Hb). }
  assert (Hex : exists col f,
            In (name, col) (fr_series (dropna fr)) /\ In f col /\
            is_infinite f = true).
  { exists (select m (pct_change_col (map Fin pq))),
           (np_sub (np_true_divide x p) 1).
    split; [|split].
    - unfold dropna. cbn [fr_series]. fold m.
      apply in_map_iff. exists (name, pct_change_col (map Fin pq)).
      split; [reflexivity|].
      unfold fr, pct_change, finite_frame. cbn [fr_series]. rewrite map_map.
      apply in_map_iff. exists (name, pq). auto.
    - apply (select_nth_In m _ (S t)); [exact Hm|].
      now apply pct_change_col_finite_next.
    - now apply np_true_divide_zero. }
  split; [exact Hex|].
  destruct Hex as [col [f [H1 [H2 H3]]]].
  unfold to_dataframe. now rewrite (finite_series_infinite _ name col f H1 H2 H3).
Qed.

Lemma X18_zero_price_leaves_infinite_return_witness :
  to_dataframe
    (dropna (pct_change (finite_frame [1; 2; 3]%Z
                           [("A"%string, [5; 0; 4])]))) = None.
Proof.
  refine (proj2 (X18_zero_price_leaves_infinite_return (fun fr => Ok fr)
            [1; 2; 3]%Z [("A"%string, [5; 0; 4])] _ "A"%string [5; 0; 4]
            1%nat 0 4 _ eq_refl _ eq_refl _ eq_refl _ _)).
  - repeat constructor.
  - now left.
  - reflexivity.
  - unfold Qeq; simpl; lia.
  - intros c a b [Hc|[]] Ha Hb; subst c; cbn in Ha, Hb.
    inversion Ha; inversion Hb; subst. intros [_ H].
    revert H. unfold Qeq; simpl; lia.
Defined.
